(** * Dashboard Sites PV: a shallow embedding of [app.py]

    The dashboard is a Streamlit script: every user interaction re-runs
    the file from top to bottom.  It reads two tables through the Supabase
    client, memoises both reads with [st.cache_data], joins them in a
    pandas DataFrame, narrows the frame with the sidebar filters and offers
    two forms that write to the [sites_mapping] table.

    The embedding follows the script:
    - JSON numbers are rationals ([Q]); a Python float is a rational or
      [NaN]; a JSON [null] is [None];
    - a DataFrame is the list of its rows, and the column dtype that pandas
      infers for [nominal_power] is written out, as it decides whether a
      missing cell reads back as [None] or as [NaN];
    - the script's effects (Gateway calls, cache slots, widgets that print
      a message, [st.rerun], [st.stop]) are threaded through a state and
      exception monad over an explicit [World], and are recorded in a
      trace. *)

From Stdlib Require Import QArith Lqa.
From stdpp Require Import gmap strings list sorting.

Open Scope string_scope.
Open Scope list_scope.

(** ** Python values *)

Module Py.

(** A Python [float]: finite values are rationals, [NaN] is apart. *)
Inductive float := NaN | Fin (q : Q).

(** [bool(x)] for a float: only zero is falsy, [nan] is truthy. *)
Definition truthy (x : float) : bool :=
  match x with
  | NaN => true
  | Fin q => negb (Qeq_bool q 0)
  end.

(** [x or d] where [x] is [None] or a float and [d] a number;
    the whole is then passed to [float(...)]. *)
Definition float_or (x : option float) (d : Q) : float :=
  match x with
  | None => Fin d
  | Some v => if truthy v then v else Fin d
  end.

(** [s or d] on an optional string: [None] and [""] are falsy. *)
Definition str_or (s : option string) (d : string) : string :=
  match s with
  | None => d
  | Some v => if String.eqb v "" then d else v
  end.

(** [s or None] on a string. *)
Definition str_or_none (s : string) : option string :=
  if String.eqb s "" then None else Some s.

(** [x or None] on a finite float. *)
Definition num_or_none (x : Q) : option Q :=
  if Qeq_bool x 0 then None else Some x.

(** Comparisons of a number with a float: false as soon as [NaN] is
    involved. *)
Definition ge (x : Q) (b : float) : bool :=
  match b with
  | NaN => false
  | Fin m => Qle_bool m x
  end.

Definition le (x : Q) (b : float) : bool :=
  match b with
  | NaN => false
  | Fin m => Qle_bool x m
  end.

(** [f"{s}"] of an optional string. *)
Definition fmt (s : option string) : string := default "None" s.

End Py.

(** ** Rows of the two tables, as the Gateway returns them *)

Module Site.
Record row := mk {
  id : Z;
  name : option string;
  code : option string;
  nominal_power : option Q;
  address : option string;
  commission_date : option string;
  client_map_id : option Z;
  ignore_site : bool
}.
End Site.

Module Client.
Record row := mk {
  id : Z;
  name : option string
}.
End Client.

(** ** The DataFrame [df] *)

Module Frame.

(** One record of [df]: the columns of the select plus [client_name].
    A [nominal_power] cell is [None] in an object column, and a float
    (possibly [NaN]) in a float64 column. *)
Record row := mk {
  id : Z;
  name : option string;
  code : option string;
  nominal_power : option Py.float;
  address : option string;
  commission_date : option string;
  client_map_id : option Z;
  ignore_site : bool;
  client_name : string
}.

(** The site a record was built from. *)
Definition site (r : row) : Site.row :=
  Site.mk (id r) (name r) (code r)
    (match nominal_power r with Some (Py.Fin q) => Some q | _ => None end)
    (address r) (commission_date r) (client_map_id r) (ignore_site r).

End Frame.

Definition TOUS : string := "Tous".
Definition NON_ASSIGNE : string := "Non assigné".

(** [pd.DataFrame(sites)] infers float64 for [nominal_power] as soon as one
    value is a number ([None] becomes [NaN] there); a column holding only
    [None] keeps dtype object and its [None]s. *)
Definition is_float_column (sites : list Site.row) : bool :=
  existsb (fun s => bool_decide (is_Some (Site.nominal_power s))) sites.

Definition power_cell (float_col : bool) (p : option Q) : option Py.float :=
  match p with
  | Some q => Some (Py.Fin q)
  | None => if float_col then Some Py.NaN else None
  end.

(** [df["client_map_id"].map(clients)]: a missing id, an id that is not a
    key of the dict and a key bound to [None] all give a missing value. *)
Definition map_clients (clients : gmap Z (option string)) (k : option Z)
  : option string :=
  match k with
  | None => None
  | Some i => match clients !! i with
              | Some (Some n) => Some n
              | _ => None
              end
  end.

(** Lines 79-80:
    [df = pd.DataFrame(sites)] and
    [df["client_name"] = df["client_map_id"].map(clients).fillna("Non assigné")]. *)
Definition assemble (sites : list Site.row) (clients : gmap Z (option string))
  : list Frame.row :=
  let float_col := is_float_column sites in
  map (fun s =>
         Frame.mk (Site.id s) (Site.name s) (Site.code s)
           (power_cell float_col (Site.nominal_power s))
           (Site.address s) (Site.commission_date s)
           (Site.client_map_id s) (Site.ignore_site s)
           (default NON_ASSIGNE (map_clients clients (Site.client_map_id s))))
      sites.

(** [Series.fillna(0)] on a [nominal_power] cell. *)
Definition fillna0 (c : option Py.float) : Q :=
  match c with
  | Some (Py.Fin q) => q
  | _ => 0%Q
  end.

(** [Series.max()] skips missing cells and is [NaN] when nothing is left. *)
Definition Qmax_b (a b : Q) : Q := if Qle_bool a b then b else a.

Fixpoint series_max (col : list (option Py.float)) : Py.float :=
  match col with
  | [] => Py.NaN
  | Some (Py.Fin q) :: rest =>
      match series_max rest with
      | Py.NaN => Py.Fin q
      | Py.Fin m => Py.Fin (Qmax_b q m)
      end
  | _ :: rest => series_max rest
  end.

(** Line 102: [float(df["nominal_power"].max() or 10000)], the [value=] of
    the "Puissance max" widget. *)
Definition default_puissance_max (df : list Frame.row) : Py.float :=
  Py.float_or (Some (series_max (map Frame.nominal_power df))) 10000.

(** [df[mask]]: the rows whose mask entry is [True], in frame order. *)
Fixpoint loc {A : Type} (df : list A) (mask : list bool) : list A :=
  match df, mask with
  | r :: df', b :: mask' => if b then r :: loc df' mask' else loc df' mask'
  | _, _ => []
  end.

(** Lines 107-113. *)
Definition apply_filters (df : list Frame.row) (filtre_client : string)
    (puissance_min puissance_max : Py.float) : list Frame.row :=
  let df_filtre := df in
  let df_filtre :=
    if negb (String.eqb filtre_client TOUS)
    then loc df_filtre
           (map (fun r => String.eqb (Frame.client_name r) filtre_client) df_filtre)
    else df_filtre in
  loc df_filtre
    (zip_with andb
       (map (fun r => Py.ge (fillna0 (Frame.nominal_power r)) puissance_min) df_filtre)
       (map (fun r => Py.le (fillna0 (Frame.nominal_power r)) puissance_max) df_filtre)).

(** The masks of the two stages, as one boolean test on a row. *)
Definition keep (sel : string) (lo hi : Py.float) (r : Frame.row) : bool :=
  (String.eqb sel TOUS || String.eqb (Frame.client_name r) sel)
  && (Py.ge (fillna0 (Frame.nominal_power r)) lo
      && Py.le (fillna0 (Frame.nominal_power r)) hi).

(** The Filter Engine as the specification words it: the elements whose
    client matches the selector (or any, under "All") and whose effective
    power lies in the closed range.  The effective power of a view is its
    nominal power when it has one and 0 when it has none; a power that is
    missing shows in the frame as [None] or as [NaN]. *)
Definition effective_power (v : Frame.row) : Q :=
  match Frame.nominal_power v with
  | Some (Py.Fin q) => q
  | Some Py.NaN => 0%Q
  | None => 0%Q
  end.

Definition admitted (selector : string) (lo hi : Q) (v : Frame.row) : Prop :=
  (selector = TOUS ∨ Frame.client_name v = selector)
  ∧ (lo <= effective_power v)%Q ∧ (effective_power v <= hi)%Q.

#[global] Instance Qle_dec (x y : Q) : Decision (x <= y)%Q.
Proof.
  destruct (Qle_bool x y) eqn:E.
  - left. by apply Qle_bool_iff.
  - right. intros H. apply Qle_bool_iff in H. congruence.
Defined.

#[global] Instance admitted_dec selector lo hi v : Decision (admitted selector lo hi v).
Proof. unfold admitted. apply _. Defined.

Definition spec_filter (views : list Frame.row) (selector : string) (lo hi : Q)
  : list Frame.row :=
  filter (admitted selector lo hi) views.

(** ** Payloads of the two write calls *)

Module Update.
(** [update_data], lines 204-210. *)
Record data := mk {
  name : string;
  code : string;
  nominal_power : Py.float;
  address : string;
  commission_date : option string
}.
End Update.

Module Insert.
(** [insert_data], lines 256-263. *)
Record data := mk {
  name : string;
  code : option string;
  nominal_power : option Q;
  address : option string;
  commission_date : option string;
  client_map_id : option Z
}.
End Insert.

(** ** The remote store behind the Gateway

    The store is not part of the script; it is modelled after the four
    Gateway operations the script issues: rows are kept in a list, a
    select filters and orders them, an update replaces the given columns of
    the rows that match the id, an insert appends a row with the next id
    and the column default [ignore_site = false]. *)

Module Store.

Record t := mk {
  sites_mapping : list Site.row;
  clients_mapping : list Client.row
}.

(** [order("name")]: ascending, nulls last. *)
Definition name_le (a b : option string) : bool :=
  match a, b with
  | _, None => true
  | None, Some _ => false
  | Some x, Some y => String.leb x y
  end.

Fixpoint insert_by {A : Type} (key : A → option string) (x : A) (l : list A)
  : list A :=
  match l with
  | [] => [x]
  | y :: l' => if name_le (key x) (key y) then x :: l else y :: insert_by key x l'
  end.

Definition order_by {A : Type} (key : A → option string) (l : list A) : list A :=
  foldr (insert_by key) [] l.

(** [.eq("ignore_site", False).order("name")] on [sites_mapping]. *)
Definition select_sites (db : t) : list Site.row :=
  order_by Site.name
    (List.filter (fun s => negb (Site.ignore_site s)) (sites_mapping db)).

(** [.select("id, name").order("name")] on [clients_mapping]. *)
Definition select_clients (db : t) : list Client.row :=
  order_by Client.name (clients_mapping db).

Definition set_columns (q : option Q) (d : Update.data) (s : Site.row) : Site.row :=
  Site.mk (Site.id s) (Some (Update.name d)) (Some (Update.code d)) q
    (Some (Update.address d)) (Update.commission_date d)
    (Site.client_map_id s) (Site.ignore_site s).

(** [.update(data).eq("id", site_id)]: the rows changed and the new
    store.  A payload holding [NaN] is not JSON and is refused. *)
Definition update (site_id : Z) (d : Update.data) (db : t)
  : string + (list Site.row * t) :=
  match Update.nominal_power d with
  | Py.NaN => inl "Out of range float values are not JSON compliant"
  | Py.Fin q =>
      let rows :=
        map (fun s => if Z.eqb (Site.id s) site_id then set_columns (Some q) d s else s)
          (sites_mapping db) in
      inr (List.filter (fun s => Z.eqb (Site.id s) site_id) rows,
           mk rows (clients_mapping db))
  end.

Definition next_id (db : t) : Z :=
  1 + foldr (fun s m => Z.max (Site.id s) m) 0%Z (sites_mapping db).

(** [.insert(data)]: the row created and the new store. *)
Definition insert (d : Insert.data) (db : t) : list Site.row * t :=
  let s := Site.mk (next_id db) (Some (Insert.name d)) (Insert.code d)
             (Insert.nominal_power d) (Insert.address d)
             (Insert.commission_date d) (Insert.client_map_id d) false in
  ([s], mk (sites_mapping db ++ [s]) (clients_mapping db)).

End Store.

(** ** Effects: the world, its trace and the script monad *)

Inductive Call :=
| SelectSites
| SelectClients
| UpdateSite (site_id : Z) (data : Update.data)
| InsertSite (data : Insert.data).

Inductive Event :=
| Gw (c : Call)                (* a call issued to the Gateway *)
| ClearSites                   (* [charger_sites.clear()] *)
| StWarning (msg : string)
| StInfo (msg : string)
| StError (msg : string)
| StSuccess (msg : string).

(** [now] is the clock the caches read; [faults] plans the fate of the
    coming Gateway calls, in order ([Some e]: the call raises [e]; nothing
    planned: the call goes through); each cache slot holds the time it was
    filled at and the value. *)
Record World := mkWorld {
  db : Store.t;
  now : Q;
  faults : list (option string);
  sites_cache : option (Q * list Site.row);
  clients_cache : option (Q * gmap Z (option string));
  trace : list Event
}.

Definition set_db (d : Store.t) (w : World) : World :=
  mkWorld d (now w) (faults w) (sites_cache w) (clients_cache w) (trace w).
Definition set_faults (f : list (option string)) (w : World) : World :=
  mkWorld (db w) (now w) f (sites_cache w) (clients_cache w) (trace w).
Definition set_sites_cache (c : option (Q * list Site.row)) (w : World) : World :=
  mkWorld (db w) (now w) (faults w) c (clients_cache w) (trace w).
Definition set_clients_cache (c : option (Q * gmap Z (option string))) (w : World)
  : World :=
  mkWorld (db w) (now w) (faults w) (sites_cache w) c (trace w).
Definition log (e : Event) (w : World) : World :=
  mkWorld (db w) (now w) (faults w) (sites_cache w) (clients_cache w) (trace w ++ [e]).

(** [st.rerun()] and [st.stop()] leave the script through exceptions that
    [except Exception] does not catch. *)
Inductive control := Rerun | Stop.

Inductive outcome (A : Type) :=
| Ok (a : A)
| Raise (e : string)          (* an [Exception] carrying its text *)
| Control (c : control).
Arguments Ok {A} a.
Arguments Raise {A} e.
Arguments Control {A} c.

Definition M (A : Type) : Type := World → outcome A * World.

Definition ret {A : Type} (a : A) : M A := fun w => (Ok a, w).

Definition bind {A B : Type} (m : M A) (k : A → M B) : M B :=
  fun w =>
    match m w with
    | (Ok a, w') => k a w'
    | (Raise e, w') => (Raise e, w')
    | (Control c, w') => (Control c, w')
    end.

Declare Scope script_scope.
Delimit Scope script_scope with script.
Notation "x <- m ;; k" := (bind m (fun x => k))
  (at level 100, m at next level, right associativity) : script_scope.
Notation "m ;; k" := (bind m (fun _ => k))
  (at level 100, right associativity) : script_scope.
Open Scope script_scope.

(** [try: body except Exception as e: handler(e)]. *)
Definition try_except {A : Type} (body : M A) (handler : string → M A) : M A :=
  fun w =>
    match body w with
    | (Raise e, w') => handler e w'
    | r => r
    end.

Definition emit (e : Event) : M unit := fun w => (Ok tt, log e w).
Definition st_warning (msg : string) : M unit := emit (StWarning msg).
Definition st_info (msg : string) : M unit := emit (StInfo msg).
Definition st_error (msg : string) : M unit := emit (StError msg).
Definition st_success (msg : string) : M unit := emit (StSuccess msg).
Definition st_rerun {A : Type} : M A := fun w => (Control Rerun, w).
Definition st_stop {A : Type} : M A := fun w => (Control Stop, w).

(** A call to the Gateway: it is recorded, consumes the fate planned for
    it, and either raises or runs on the store. *)
Definition gateway {A : Type} (c : Call) (op : Store.t → string + (A * Store.t))
  : M A :=
  fun w =>
    let w1 := log (Gw c) (set_faults (tail (faults w)) w) in
    match head (faults w) with
    | Some (Some e) => (Raise e, w1)
    | _ =>
        match op (db w) with
        | inl e => (Raise e, w1)
        | inr (a, d) => (Ok a, set_db d w1)
        end
    end.

(** ** Cache Layer: [st.cache_data(ttl=...)]

    A slot is served while its age is below the ttl; otherwise the
    function runs and, when it returns, its value is stored with the
    current time.  An exception leaves the slot as it was. *)
Definition fresh {A : Type} (ttl : Q) (clock : Q) (slot : option (Q * A)) : option A :=
  match slot with
  | Some (t0, v) => if Qle_bool (t0 + ttl) clock then None else Some v
  | None => None
  end.

Definition cache_data {A : Type} (ttl : Q)
    (get : World → option (Q * A)) (set : option (Q * A) → World → World)
    (f : M A) : M A :=
  fun w =>
    match fresh ttl (now w) (get w) with
    | Some v => (Ok v, w)
    | None =>
        match f w with
        | (Ok v, w') => (Ok v, set (Some (now w', v)) w')
        | r => r
        end
    end.

(** ** Data functions, lines 37-62 *)

Definition charger_sites : M (list Site.row) :=
  cache_data 60 sites_cache set_sites_cache
    (gateway SelectSites (fun d => inr (Store.select_sites d, d))).

(** [{c["id"]: c["name"] for c in response.data}]: a later row wins. *)
Definition dict_of_clients (rows : list Client.row) : gmap Z (option string) :=
  foldl (fun m c => <[Client.id c := Client.name c]> m) ∅ rows.

Definition charger_clients : M (gmap Z (option string)) :=
  cache_data 300 clients_cache set_clients_cache
    (response <- gateway SelectClients (fun d => inr (Store.select_clients d, d)) ;;
     ret (dict_of_clients response)).

Definition charger_sites_clear : M unit :=
  fun w => (Ok tt, log ClearSites (set_sites_cache None w)).

Definition sauvegarder_site (site_id : Z) (data : Update.data) : M (list Site.row) :=
  response <- gateway (UpdateSite site_id data) (Store.update site_id data) ;;
  charger_sites_clear ;;
  ret response.

Definition ajouter_site (data : Insert.data) : M (list Site.row) :=
  response <- gateway (InsertSite data) (fun d => inr (Store.insert data d)) ;;
  charger_sites_clear ;;
  ret response.

(** ** The forms *)

Module EditForm.
(** What the widgets of [form_edit] hold when the form is submitted. *)
Record t := mk {
  new_name : string;
  new_code : string;
  new_power : Py.float;
  new_address : string;
  new_date : option string
}.
End EditForm.

Module AddForm.
(** What the widgets of [form_ajout] hold when the form is submitted.
    [add_client] is the option picked: [None] for "-- Aucun --", whose
    key is the empty string, [Some k] for the key [str(k)]. *)
Record t := mk {
  add_name : string;
  add_code : string;
  add_power : Q;
  add_address : string;
  add_date : option string;
  add_client : option Z
}.

(** The form as it is first drawn. *)
Definition blank : t := mk "" "" 0 "" None None.
End AddForm.

(** Lines 185-199: the [value=] each widget of [form_edit] is given, which
    is also what it returns when the user leaves it alone.  Dates are kept
    in their ISO text. *)
Definition edit_defaults (site : Frame.row) : EditForm.t :=
  EditForm.mk
    (Py.str_or (Frame.name site) "")
    (Py.str_or (Frame.code site) "")
    (Py.float_or (Frame.nominal_power site) 0)
    (Py.str_or (Frame.address site) "")
    (match Frame.commission_date site with
     | Some d => if String.eqb d "" then None else Some d
     | None => None
     end).

(** Lines 204-210. *)
Definition update_data (f : EditForm.t) : Update.data :=
  Update.mk (EditForm.new_name f) (EditForm.new_code f) (EditForm.new_power f)
    (EditForm.new_address f) (EditForm.new_date f).

(** Lines 203-216: the body of [if submitted:] in [form_edit]. *)
Definition form_edit_submit (site : Frame.row) (f : EditForm.t) : M unit :=
  try_except
    (sauvegarder_site (Frame.id site) (update_data f) ;;
     st_success ("Site '" +:+ EditForm.new_name f +:+ "' mis à jour !") ;;
     st_rerun)
    (fun e => st_error ("Erreur lors de la sauvegarde : " +:+ e)).

(** Lines 256-263. *)
Definition insert_data (f : AddForm.t) : Insert.data :=
  Insert.mk (AddForm.add_name f)
    (Py.str_or_none (AddForm.add_code f))
    (Py.num_or_none (AddForm.add_power f))
    (Py.str_or_none (AddForm.add_address f))
    (AddForm.add_date f)
    (AddForm.add_client f).

(** Lines 252-269: the body of [if submitted:] in [form_ajout]. *)
Definition form_ajout_submit (f : AddForm.t) : M unit :=
  if String.eqb (AddForm.add_name f) ""
  then st_error "Le nom est obligatoire."
  else
    try_except
      (ajouter_site (insert_data f) ;;
       st_success ("Site '" +:+ AddForm.add_name f +:+ "' ajouté !") ;;
       st_rerun)
      (fun e => st_error ("Erreur lors de l'ajout : " +:+ e)).

(** ** The script *)

(** A Python dict built by assignments: a key keeps the place of its first
    assignment and the value of its last. *)
Fixpoint dict_set {V : Type} (k : string) (v : V) (d : list (string * V))
  : list (string * V) :=
  match d with
  | [] => [(k, v)]
  | (k', v') :: d' =>
      if String.eqb k' k then (k', v) :: d' else (k', v') :: dict_set k v d'
  end.

Fixpoint dict_get {V : Type} (k : string) (d : list (string * V)) : option V :=
  match d with
  | [] => None
  | (k', v') :: d' => if String.eqb k' k then Some v' else dict_get k d'
  end.

(** Line 165. *)
Definition site_label (s : Frame.row) : string :=
  Py.fmt (Frame.name s) +:+ " (" +:+ Py.fmt (Frame.code s) +:+ ")".

Definition sites_options (df_filtre : list Frame.row) : list (string * Frame.row) :=
  foldl (fun d s => dict_set (site_label s) s d) [] df_filtre.

(** What the user did before this run.  A widget that was left alone is
    [None] and returns its [value=]. *)
Record Inputs := mkInputs {
  filtre_client : string;
  puissance_min : Q;
  puissance_max : option Q;
  edit_select : option string;
  edit_submitted : option (option EditForm.t);
  ajout_submitted : option AddForm.t
}.

Record Page := mkPage {
  df : list Frame.row;
  df_filtre : list Frame.row
}.

(** Lines 161-216. *)
Definition tab_edit (inp : Inputs) (df_filtre : list Frame.row) : M unit :=
  match sites_options df_filtre with
  | [] => st_info "Aucun site à afficher avec les filtres actuels."
  | (_, first) :: _ as options =>
      let site :=
        default first (edit_select inp ≫= fun k => dict_get k options) in
      match edit_submitted inp with
      | Some f => form_edit_submit site (default (edit_defaults site) f)
      | None => ret tt
      end
  end.

(** Lines 222-269. *)
Definition tab_ajout (inp : Inputs) : M unit :=
  match ajout_submitted inp with
  | Some f => form_ajout_submit f
  | None => ret tt
  end.

(** One run of the script, lines 68-276.  The list tab only displays
    [df_filtre] and offers its CSV; it has no effect on the world. *)
Definition main (inp : Inputs) : M Page :=
  sites <- charger_sites ;;
  clients <- charger_clients ;;
  match sites with
  | [] => st_warning "Aucun site trouvé dans la base." ;; st_stop
  | _ =>
      let df := assemble sites clients in
      let pmax :=
        match puissance_max inp with
        | Some q => Py.Fin q
        | None => default_puissance_max df
        end in
      let df_filtre :=
        apply_filters df (filtre_client inp) (Py.Fin (puissance_min inp)) pmax in
      tab_edit inp df_filtre ;;
      tab_ajout inp ;;
      ret (mkPage df df_filtre)
  end.

(** ** Histories

    Between two runs the surroundings move: time passes, other writers
    change the store, the network goes up and down.  The caches and the
    trace belong to the application and only a run changes them. *)
Definition start (d : Store.t) : World := mkWorld d 0 [] None None [].

Definition env (d : Store.t) (t : Q) (f : list (option string)) (w : World) : World :=
  mkWorld d t f (sites_cache w) (clients_cache w) (trace w).

Inductive step : World → World → Prop :=
| step_run inp w r w' :
    main inp w = (r, w') → step w w'
| step_env w d t f :
    step w (env d t f w).

(** The next Gateway call is not planned to fail. *)
Definition goes_through (f : list (option string)) : Prop :=
  ∀ e, head f ≠ Some (Some e).

Definition reachable (w : World) : Prop := ∃ d, rtc step (start d) w.

(** Every site of a collection is visible ([ignore_site] is false). *)
Definition visible (sites : list Site.row) : Prop :=
  Forall (fun s => Site.ignore_site s = false) sites.

(** The sites entry, when there is one, holds visible sites only. *)
Definition cache_ok (w : World) : Prop :=
  ∀ t v, sites_cache w = Some (t, v) → visible v.

(** An operation that leaves the sites entry alone or drops it. *)
Definition shrinks (w w' : World) : Prop :=
  sites_cache w' = sites_cache w ∨ sites_cache w' = None.

Definition preserves {A : Type} (R : World → World → Prop) (m : M A) : Prop :=
  ∀ w r w', m w = (r, w') → R w w'.

Definition calls (tr : list Event) : list Call :=
  omap (fun e => match e with Gw c => Some c | _ => None end) tr.


(** ** The client selector, line 89

    [["Tous"] + sorted(df["client_name"].dropna().unique().tolist())]:
    [unique] keeps the first occurrence of each name, in order of
    appearance; [sorted] orders strings by code point, which on UTF-8 text
    is the order of the bytes.  [dropna] finds nothing to drop, the column
    was filled on line 80. *)
Fixpoint unique_from (seen : list string) (l : list string) : list string :=
  match l with
  | [] => []
  | x :: l' =>
      if bool_decide (x ∈ seen) then unique_from seen l'
      else x :: unique_from (x :: seen) l'
  end.

Definition unique (l : list string) : list string := unique_from [] l.

Fixpoint insort (x : string) (l : list string) : list string :=
  match l with
  | [] => [x]
  | y :: l' => if String.leb x y then x :: l else y :: insort x l'
  end.

Definition sorted (l : list string) : list string := foldr insort [] l.

Definition clients_uniques (df : list Frame.row) : list string :=
  TOUS :: sorted (unique (map Frame.client_name df)).

(** The events of a trace that change the store or drop the sites entry. *)
Definition is_write (e : Event) : bool :=
  match e with
  | Gw (UpdateSite _ _) | Gw (InsertSite _) | ClearSites => true
  | _ => false
  end.

Definition writes (tr : list Event) : list Event := List.filter is_write tr.

(** A run that changes neither the store nor the record of writes, and
    does not drop the sites entry. *)
Definition quiet (w w' : World) : Prop :=
  db w' = db w
  ∧ writes (trace w') = writes (trace w)
  ∧ (sites_cache w' = None → sites_cache w = None).

(** ** Sample data

    The sites and clients of the specification's scenarios, and two sites
    at the edges: one whose power is zero, one whose power is null. *)
Definition alpha : Site.row :=
  Site.mk 1 (Some "Alpha") (Some "A1") (Some 50%Q) None None (Some 1%Z) false.
Definition beta : Site.row :=
  Site.mk 2 (Some "Beta") (Some "B1") (Some 200%Q) None None None false.
Definition gamma : Site.row :=
  Site.mk 3 (Some "Gamma") None None None None None false.
Definition idle : Site.row :=
  Site.mk 4 (Some "Idle") (Some "I1") (Some 0%Q) None None None false.
Definition acme : gmap Z (option string) := {[ 1%Z := Some "Acme" ]}.

(** A store holding the two sites of scenario A, a site that is ignored,
    and the client Acme. *)
Definition hidden : Site.row :=
  Site.mk 5 (Some "Hidden") None (Some 10%Q) None None None true.
Definition store0 : Store.t :=
  Store.mk [beta; hidden; alpha] [Client.mk 1 (Some "Acme")].

(** Scenario C: set the power of site 1 to 75. *)
Definition power_75 : Update.data := Update.mk "Alpha" "A1" (Py.Fin 75) "" None.

(** The world once the sites of [store0] have been read at time 0. *)
Definition cached0 : World :=
  mkWorld store0 0 [] (Some (0%Q, [alpha; beta])) None [Gw SelectSites].

(** A first visit while the store cannot be reached. *)
Definition browse : Inputs := mkInputs TOUS 0 None None None None.


(** * Properties *)

(** ** Filter Engine *)

Section Loc.
Context {A : Type}.

Lemma loc_map (p : A → bool) (l : list A) :
  loc l (map p l) = List.filter p l.
Proof.
  induction l as [|x l IH]; simpl; [done|].
  rewrite IH. by destruct (p x).
Qed.

Lemma loc_and (p q : A → bool) (l : list A) :
  loc l (zip_with andb (map p l) (map q l))
  = List.filter (fun x => p x && q x) l.
Proof.
  induction l as [|x l IH]; simpl; [done|].
  rewrite IH. by destruct (p x), (q x).
Qed.

Lemma filter_bool_prop (p : A → bool) (P : A → Prop) `{!∀ x, Decision (P x)}
    (l : list A) :
  (∀ x, p x = true ↔ P x) → List.filter p l = filter P l.
Proof.
  intros Hp. induction l as [|x l IH]; simpl; [done|].
  rewrite filter_cons, IH.
  destruct (p x) eqn:E; destruct (decide (P x)) as [HP|HP]; try done.
  - apply Hp in E. done.
  - apply Hp in HP. congruence.
Qed.

Lemma filter_filter_bool (p q : A → bool) (l : list A) :
  List.filter q (List.filter p l) = List.filter (fun x => p x && q x) l.
Proof.
  induction l as [|x l IH]; simpl; [done|].
  destruct (p x); simpl; rewrite IH; done.
Qed.
End Loc.

Lemma filter_none {A : Type} (P : A → Prop) `{!∀ x, Decision (P x)} (l : list A) :
  (∀ x, ¬ P x) → filter P l = [].
Proof.
  intros HP. induction l as [|x l IH]; [done|].
  rewrite filter_cons, IH. destruct (decide (P x)) as [HPx|HPx]; [|done].
  by apply HP in HPx.
Qed.

Lemma apply_filters_keep df0 sel lo hi :
  apply_filters df0 sel lo hi = List.filter (keep sel lo hi) df0.
Proof.
  unfold apply_filters, keep.
  destruct (String.eqb sel TOUS) eqn:E; simpl.
  - by rewrite loc_and.
  - by rewrite loc_and, loc_map, filter_filter_bool.
Qed.

(** What [fillna(0)] leaves in a cell is the effective power of the row. *)
Lemma fillna0_effective r :
  fillna0 (Frame.nominal_power r) = effective_power r.
Proof.
  unfold fillna0, effective_power. by destruct (Frame.nominal_power r) as [[|q]|].
Qed.

(** The effective power of a row is the power of its site, or 0 when the
    site has none. *)
Lemma effective_power_site r :
  effective_power r = default 0%Q (Site.nominal_power (Frame.site r)).
Proof.
  unfold effective_power, Frame.site; simpl.
  by destruct (Frame.nominal_power r) as [[|q]|].
Qed.

Lemma effective_power_assembled sites clients i s :
  sites !! i = Some s →
  ∃ v, assemble sites clients !! i = Some v
       ∧ effective_power v = default 0%Q (Site.nominal_power s).
Proof.
  intros Hs. unfold assemble. rewrite list_lookup_fmap, Hs. simpl.
  eexists. split; [done|]. unfold effective_power; simpl.
  destruct (Site.nominal_power s) as [q|]; simpl; [done|].
  by destruct (is_float_column sites).
Qed.

Lemma keep_admitted sel lo hi r :
  keep sel (Py.Fin lo) (Py.Fin hi) r = true ↔ admitted sel lo hi r.
Proof.
  unfold keep, admitted. rewrite fillna0_effective. simpl.
  rewrite andb_true_iff, andb_true_iff, orb_true_iff.
  rewrite !String.eqb_eq, !Qle_bool_iff.
  intuition congruence.
Qed.

(** A bound that is [NaN] lets nothing through. *)
Lemma apply_filters_nan_max df0 sel lo :
  apply_filters df0 sel lo Py.NaN = [].
Proof.
  rewrite apply_filters_keep. unfold keep; simpl.
  induction df0 as [|r l IH]; simpl; [done|].
  by rewrite !andb_false_r.
Qed.

(** C1. The output of the Filter Engine is the subsequence of its input, in
    the input's order, made of exactly the views whose client matches the
    selector (any client under "Tous") and whose effective power lies
    between min and max, both included; it is empty when min is above max.
    The effective power of a view is the nominal power of its site when
    the site has one and 0 otherwise, also on the frame that Data Assembly
    builds from a site collection. *)
Theorem filter_engine_correct (views : list Frame.row) (selector : string)
    (lo hi : Q) :
  apply_filters views selector (Py.Fin lo) (Py.Fin hi)
    = spec_filter views selector lo hi
  ∧ apply_filters views selector (Py.Fin lo) (Py.Fin hi) `sublist_of` views
  ∧ (∀ v, v ∈ apply_filters views selector (Py.Fin lo) (Py.Fin hi)
          ↔ v ∈ views
            ∧ (selector = TOUS ∨ Frame.client_name v = selector)
            ∧ (lo <= default 0 (Site.nominal_power (Frame.site v)))%Q
            ∧ (default 0 (Site.nominal_power (Frame.site v)) <= hi)%Q)
  ∧ ((hi < lo)%Q → apply_filters views selector (Py.Fin lo) (Py.Fin hi) = [])
  ∧ (∀ v, effective_power v = default 0%Q (Site.nominal_power (Frame.site v)))
  ∧ (∀ sites clients i s, sites !! i = Some s →
       ∃ v, assemble sites clients !! i = Some v
            ∧ effective_power v = default 0%Q (Site.nominal_power s)).
Proof.
  assert (E : apply_filters views selector (Py.Fin lo) (Py.Fin hi)
              = spec_filter views selector lo hi).
  { rewrite apply_filters_keep. unfold spec_filter.
    apply filter_bool_prop. intros r. apply keep_admitted. }
  rewrite E. unfold spec_filter. split; [done|].
  split; [|split; [|split; [|split]]].
  - apply sublist_filter.
  - intros v. rewrite list_elem_of_filter. unfold admitted.
    rewrite effective_power_site. tauto.
  - intros Hlt. apply filter_none. intros v (_ & Hlo & Hhi).
    apply (Qlt_not_le _ _ Hlt). by apply Qle_trans with (effective_power v).
  - apply effective_power_site.
  - apply effective_power_assembled.
Qed.

Lemma filter_engine_correct_witness :
  let alpha := Frame.mk 1 (Some "Alpha") None (Some (Py.Fin 50)) None None (Some 1%Z) false "Acme" in
  let beta := Frame.mk 2 (Some "Beta") None (Some Py.NaN) None None None false NON_ASSIGNE in
  apply_filters [alpha; beta] "Acme" (Py.Fin 60) (Py.Fin 10) = [].
Proof.
  intros alpha beta.
  apply (filter_engine_correct [alpha; beta] "Acme" 60 10).
  reflexivity.
Defined.

(** ** Data Assembly *)

Lemma site_of_assembled float_col clients s :
  Frame.site
    (Frame.mk (Site.id s) (Site.name s) (Site.code s)
       (power_cell float_col (Site.nominal_power s))
       (Site.address s) (Site.commission_date s)
       (Site.client_map_id s) (Site.ignore_site s)
       (default NON_ASSIGNE (map_clients clients (Site.client_map_id s))))
  = s.
Proof.
  destruct s as [i n c p a d k g]; unfold Frame.site; simpl.
  by destruct p as [q|], float_col.
Qed.

Lemma assemble_sites sites clients :
  map Frame.site (assemble sites clients) = sites.
Proof.
  unfold assemble. generalize (is_float_column sites) as fc. intros fc.
  induction sites as [|s l IH]; simpl; [done|].
  by rewrite site_of_assembled, IH.
Qed.

Lemma assemble_lookup sites clients i s :
  sites !! i = Some s →
  ∃ v, assemble sites clients !! i = Some v
       ∧ Frame.site v = s
       ∧ Frame.client_name v
         = default NON_ASSIGNE (map_clients clients (Site.client_map_id s)).
Proof.
  intros Hs. unfold assemble. rewrite list_lookup_fmap, Hs. simpl.
  eexists. split; [done|]. split; [apply site_of_assembled | done].
Qed.

(** A client whose own name is null reads as unassigned too. *)
Lemma map_clients_null_name clients k :
  clients !! k = Some None →
  default NON_ASSIGNE (map_clients clients (Some k)) = NON_ASSIGNE.
Proof. intros H. unfold map_clients. by rewrite H. Qed.

(** C4. Data Assembly returns one view per site, in the order of the site
    collection; the view of a site carries the client's name when
    [client_map_id] resolves in the mapping and the label "Non assigné"
    when [client_map_id] is null or has no entry.  [client_name] is a
    string in every case and the join cannot fail. *)
Theorem assembly_total (sites : list Site.row) (clients : gmap Z (option string)) :
  length (assemble sites clients) = length sites
  ∧ map Frame.site (assemble sites clients) = sites
  ∧ ∀ i s, sites !! i = Some s →
      ∃ v, assemble sites clients !! i = Some v
        ∧ Frame.site v = s
        ∧ (∀ k n, Site.client_map_id s = Some k → clients !! k = Some (Some n) →
             Frame.client_name v = n)
        ∧ (Site.client_map_id s = None → Frame.client_name v = NON_ASSIGNE)
        ∧ (∀ k, Site.client_map_id s = Some k → clients !! k = None →
             Frame.client_name v = NON_ASSIGNE).
Proof.
  split; [|split].
  - unfold assemble. apply length_map.
  - apply assemble_sites.
  - intros i s Hs.
    destruct (assemble_lookup sites clients i s Hs) as (v & Hv & Hsite & Hname).
    exists v. split; [done|]. split; [done|]. rewrite Hname.
    split; [|split].
    + intros k n Hk Hn. unfold map_clients. by rewrite Hk, Hn.
    + intros Hk. by rewrite Hk.
    + intros k Hk Hn. unfold map_clients. by rewrite Hk, Hn.
Qed.

Lemma assembly_total_witness :
  ∃ v, assemble [alpha; beta] acme !! 0%nat = Some v
       ∧ Frame.client_name v = "Acme".
Proof.
  destruct (assembly_total [alpha; beta] acme) as (_ & _ & H).
  destruct (H 0%nat alpha eq_refl) as (v & Hv & _ & Hres & _).
  exists v. split; [exact Hv|].
  apply (Hres 1%Z "Acme"); reflexivity.
Defined.

Example scenario_A_names :
  map Frame.client_name (assemble [alpha; beta] acme) = ["Acme"; NON_ASSIGNE].
Proof. reflexivity. Qed.

Example scenario_A_filter :
  map Frame.name (apply_filters (assemble [alpha; beta] acme) TOUS (Py.Fin 0) (Py.Fin 100))
  = [Some "Alpha"].
Proof. reflexivity. Qed.

Example scenario_B_filter :
  map Frame.name (apply_filters (assemble [alpha; beta] acme) "Acme" (Py.Fin 0) (Py.Fin 1000))
  = [Some "Alpha"]
  ∧ apply_filters (assemble [alpha; beta] acme) "Acme" (Py.Fin 60) (Py.Fin 1000) = [].
Proof. split; reflexivity. Qed.

(** ** Default of the "Puissance max" widget *)

Lemma Qmax_b_cases a b :
  (Qmax_b a b = a ∨ Qmax_b a b = b) ∧ (a <= Qmax_b a b)%Q ∧ (b <= Qmax_b a b)%Q.
Proof.
  unfold Qmax_b. destruct (Qle_bool a b) eqn:E.
  - apply Qle_bool_iff in E. repeat split; [by right | done | apply Qle_refl].
  - assert (¬ (a <= b)%Q) as H by (intros H; apply Qle_bool_iff in H; congruence).
    repeat split; [by left | apply Qle_refl | lra].
Qed.

Lemma series_max_nan col :
  series_max col = Py.NaN → ∀ q, Some (Py.Fin q) ∉ col.
Proof.
  induction col as [|c col IH]; intros H q Hin.
  - by apply not_elem_of_nil in Hin.
  - apply elem_of_cons in Hin. simpl in H.
    destruct c as [[|q']|]; try (destruct Hin as [?|Hin]; [done | by apply (IH H q)]).
    by destruct (series_max col).
Qed.

Lemma series_max_fin col m :
  series_max col = Py.Fin m →
  Some (Py.Fin m) ∈ col ∧ ∀ q, Some (Py.Fin q) ∈ col → (q <= m)%Q.
Proof.
  revert m. induction col as [|c col IH]; intros m H; [done|].
  simpl in H.
  destruct c as [[|q']|].
  - destruct (IH m H) as [Hin Hmax]. split; [by right|].
    intros q Hq. apply elem_of_cons in Hq as [?|Hq]; [done | by apply Hmax].
  - destruct (series_max col) as [|m'] eqn:E.
    + injection H as <-. split; [by left|].
      intros q Hq. apply elem_of_cons in Hq as [Hq|Hq].
      * injection Hq as ->. apply Qle_refl.
      * by apply (series_max_nan col E) in Hq.
    + injection H as <-. destruct (IH m' eq_refl) as [Hin Hmax].
      destruct (Qmax_b_cases q' m') as ([-> | ->] & Hq' & Hm').
      * split; [by left|]. intros q Hq. apply elem_of_cons in Hq as [Hq|Hq].
        -- injection Hq as ->. apply Qle_refl.
        -- apply Qle_trans with m'; [by apply Hmax | done].
      * split; [by right|]. intros q Hq. apply elem_of_cons in Hq as [Hq|Hq].
        -- by injection Hq as ->.
        -- by apply Hmax.
  - destruct (IH m H) as [Hin Hmax]. split; [by right|].
    intros q Hq. apply elem_of_cons in Hq as [?|Hq]; [done | by apply Hmax].
Qed.

Lemma power_cells sites clients q :
  Some (Py.Fin q) ∈ map Frame.nominal_power (assemble sites clients)
  ↔ Some q ∈ map Site.nominal_power sites.
Proof.
  unfold assemble. generalize (is_float_column sites). intros fc.
  rewrite !list_elem_of_fmap. split.
  - intros (v & Hq & Hv). apply list_elem_of_fmap in Hv as (s & -> & Hs).
    exists s. split; [|done]. simpl in Hq.
    destruct (Site.nominal_power s) as [p|]; simpl in Hq.
    + by injection Hq as ->.
    + by destruct fc.
  - intros (s & Hq & Hs). eexists. split; [|apply list_elem_of_fmap; eauto].
    simpl. by rewrite <- Hq.
Qed.

Lemma main_stops_when_empty inp w w1 w2 clients :
  charger_sites w = (Ok [], w1) → charger_clients w1 = (Ok clients, w2) →
  main inp w = (Control Stop, log (StWarning "Aucun site trouvé dans la base.") w2).
Proof. intros H1 H2. unfold main, bind. by rewrite H1, H2. Qed.

(** C5, amended. When at least one site of the collection has a nominal
    power, the default of the max bound is the largest nominal power of the
    unfiltered collection, unless that largest power is zero, in which case
    the default is 10000.  When the collection is empty no bound is
    computed: the run prints its warning and stops. *)
Theorem default_max_bound :
  (∀ (sites : list Site.row) (clients : gmap Z (option string)),
     (∃ q, Some q ∈ map Site.nominal_power sites) →
     ∃ m, Some m ∈ map Site.nominal_power sites
          ∧ (∀ q, Some q ∈ map Site.nominal_power sites → (q <= m)%Q)
          ∧ default_puissance_max (assemble sites clients)
            = Py.Fin (if Qeq_bool m 0 then 10000 else m))
  ∧ (∀ inp w w1 w2 clients,
       charger_sites w = (Ok [], w1) → charger_clients w1 = (Ok clients, w2) →
       main inp w
       = (Control Stop, log (StWarning "Aucun site trouvé dans la base.") w2)).
Proof.
  split; [|apply main_stops_when_empty].
  intros sites clients [q Hq]. unfold default_puissance_max.
  destruct (series_max (map Frame.nominal_power (assemble sites clients)))
    as [|m] eqn:E.
  - exfalso. apply (series_max_nan _ E q). by apply power_cells.
  - destruct (series_max_fin _ _ E) as [Hin Hmax]. exists m.
    split; [by apply (power_cells sites clients)|]. split.
    + intros q' Hq'. apply Hmax. by apply power_cells.
    + simpl. by destruct (Qeq_bool m 0).
Qed.

Lemma default_max_bound_witness :
  (∃ m, Some m ∈ map Site.nominal_power [alpha; beta]
        ∧ (∀ q, Some q ∈ map Site.nominal_power [alpha; beta] → (q <= m)%Q)
        ∧ default_puissance_max (assemble [alpha; beta] acme)
          = Py.Fin (if Qeq_bool m 0 then 10000 else m))
  ∧ (main browse (start (Store.mk [hidden] []))).1 = Control Stop.
Proof.
  destruct default_max_bound as [Hmax Hstop]. split.
  - apply (Hmax [alpha; beta] acme). exists 50%Q. simpl. left.
  - by rewrite (Hstop browse (start (Store.mk [hidden] [])) _ _ _ eq_refl eq_refl).
Defined.

(** C5 as stated fails on a collection whose largest power is zero: the
    collection is not empty, the maximum observed is 0, and the default is
    10000. *)
Lemma default_max_zero :
  Some 0%Q ∈ map Site.nominal_power [idle]
  ∧ (∀ q, Some q ∈ map Site.nominal_power [idle] → (q <= 0)%Q)
  ∧ default_puissance_max (assemble [idle] ∅) = Py.Fin 10000
  ∧ ¬ (10000 == 0)%Q.
Proof.
  split; [by left|]. split; [|split; [reflexivity | discriminate]].
  intros q Hq. apply list_elem_of_singleton in Hq. injection Hq as ->.
  apply Qle_refl.
Qed.

(** When every power is null the column maximum is [NaN], which is truthy,
    and the widget is handed [NaN]. *)
Lemma default_max_all_null :
  default_puissance_max (assemble [gamma] ∅) = Py.NaN.
Proof. reflexivity. Qed.

(** ** Cache Layer *)

Lemma gateway_ok {A : Type} (c : Call) (op : Store.t → string + (A * Store.t))
    (w : World) (a : A) (d : Store.t) :
  goes_through (faults w) → op (db w) = inr (a, d) →
  gateway c op w = (Ok a, set_db d (log (Gw c) (set_faults (tail (faults w)) w))).
Proof.
  intros Hf Hop. unfold gateway. rewrite Hop.
  destruct (head (faults w)) as [[e|]|] eqn:E; try done.
  by destruct (Hf e).
Qed.

Lemma gateway_fails {A : Type} (c : Call) (op : Store.t → string + (A * Store.t))
    (w : World) (e : string) :
  head (faults w) = Some (Some e) →
  gateway c op w = (Raise e, log (Gw c) (set_faults (tail (faults w)) w)).
Proof. intros Hf. unfold gateway. by rewrite Hf. Qed.

Lemma fresh_within {A : Type} (ttl t t0 : Q) (v : A) :
  (t < t0 + ttl)%Q → fresh ttl t (Some (t0, v)) = Some v.
Proof.
  intros H. unfold fresh. destruct (Qle_bool (t0 + ttl) t) eqn:E; [|done].
  apply Qle_bool_iff in E. lra.
Qed.

Lemma fresh_after {A : Type} (ttl t t0 : Q) (v : A) :
  (t0 + ttl <= t)%Q → fresh ttl t (Some (t0, v)) = None.
Proof.
  intros H. unfold fresh. apply Qle_bool_iff in H. by rewrite H.
Qed.

Lemma charger_sites_hit w v :
  fresh 60 (now w) (sites_cache w) = Some v → charger_sites w = (Ok v, w).
Proof. intros H. unfold charger_sites, cache_data. by rewrite H. Qed.

Lemma charger_sites_miss w :
  fresh 60 (now w) (sites_cache w) = None → goes_through (faults w) →
  charger_sites w
  = (Ok (Store.select_sites (db w)),
     mkWorld (db w) (now w) (tail (faults w))
       (Some (now w, Store.select_sites (db w))) (clients_cache w)
       (trace w ++ [Gw SelectSites])).
Proof.
  intros H Hf. unfold charger_sites, cache_data. rewrite H.
  by rewrite (gateway_ok _ _ w (Store.select_sites (db w)) (db w) Hf eq_refl).
Qed.

Lemma charger_clients_hit w v :
  fresh 300 (now w) (clients_cache w) = Some v → charger_clients w = (Ok v, w).
Proof. intros H. unfold charger_clients, cache_data. by rewrite H. Qed.

Lemma charger_clients_miss w :
  fresh 300 (now w) (clients_cache w) = None → goes_through (faults w) →
  charger_clients w
  = (Ok (dict_of_clients (Store.select_clients (db w))),
     mkWorld (db w) (now w) (tail (faults w)) (sites_cache w)
       (Some (now w, dict_of_clients (Store.select_clients (db w))))
       (trace w ++ [Gw SelectClients])).
Proof.
  intros H Hf. unfold charger_clients, cache_data, bind. rewrite H.
  by rewrite (gateway_ok _ _ w (Store.select_clients (db w)) (db w) Hf eq_refl).
Qed.

(** C3. A read that finds no fresh entry calls the Gateway once and stores
    what it got with the time of the read.  From then on, whatever happens
    to the store, a read less than the ttl later (60 s for the sites, 300 s
    for the clients) returns the stored value and calls nothing; a read at
    or after the ttl calls the Gateway exactly once, stores the new result
    with the new time and returns it. *)
Theorem ttl_window (w : World) :
  goes_through (faults w) →
  (fresh 60 (now w) (sites_cache w) = None →
   ∃ w1, charger_sites w = (Ok (Store.select_sites (db w)), w1)
     ∧ trace w1 = trace w ++ [Gw SelectSites]
     ∧ sites_cache w1 = Some (now w, Store.select_sites (db w))
     ∧ (∀ d t f, (t < now w + 60)%Q →
          charger_sites (env d t f w1)
          = (Ok (Store.select_sites (db w)), env d t f w1))
     ∧ (∀ d t f, (now w + 60 <= t)%Q → goes_through f →
          ∃ w2, charger_sites (env d t f w1) = (Ok (Store.select_sites d), w2)
            ∧ trace w2 = trace w1 ++ [Gw SelectSites]
            ∧ sites_cache w2 = Some (t, Store.select_sites d)))
  ∧
  (fresh 300 (now w) (clients_cache w) = None →
   ∃ w1, charger_clients w = (Ok (dict_of_clients (Store.select_clients (db w))), w1)
     ∧ trace w1 = trace w ++ [Gw SelectClients]
     ∧ clients_cache w1
       = Some (now w, dict_of_clients (Store.select_clients (db w)))
     ∧ (∀ d t f, (t < now w + 300)%Q →
          charger_clients (env d t f w1)
          = (Ok (dict_of_clients (Store.select_clients (db w))), env d t f w1))
     ∧ (∀ d t f, (now w + 300 <= t)%Q → goes_through f →
          ∃ w2, charger_clients (env d t f w1)
                = (Ok (dict_of_clients (Store.select_clients d)), w2)
            ∧ trace w2 = trace w1 ++ [Gw SelectClients]
            ∧ clients_cache w2
              = Some (t, dict_of_clients (Store.select_clients d)))).
Proof.
  intros Hf. split; intros Hmiss.
  - eexists. split; [by apply charger_sites_miss|]. simpl.
    split; [done|]. split; [done|]. split.
    + intros d t f Ht. apply charger_sites_hit. simpl. by apply fresh_within.
    + intros d t f Ht Hgo. eexists. split.
      * apply charger_sites_miss; simpl; [by apply fresh_after | done].
      * by simpl.
  - eexists. split; [by apply charger_clients_miss|]. simpl.
    split; [done|]. split; [done|]. split.
    + intros d t f Ht. apply charger_clients_hit. simpl. by apply fresh_within.
    + intros d t f Ht Hgo. eexists. split.
      * apply charger_clients_miss; simpl; [by apply fresh_after | done].
      * by simpl.
Qed.

Lemma ttl_window_witness :
  ∃ w1, charger_sites (start store0) = (Ok [alpha; beta], w1)
        ∧ trace w1 = [Gw SelectSites]
        ∧ charger_sites (env (Store.mk [] []) 59 [Some "down"] w1)
          = (Ok [alpha; beta], env (Store.mk [] []) 59 [Some "down"] w1).
Proof.
  assert (Hgo : goes_through (faults (start store0))) by (intros e; discriminate).
  destruct (ttl_window (start store0) Hgo) as [Hsites _].
  destruct (Hsites eq_refl) as (w1 & Hread & Htr & _ & Hhit & _).
  exists w1. split; [exact Hread|]. split; [exact Htr|].
  apply Hhit. reflexivity.
Defined.

(** ** Writes and invalidation *)

Lemma sauvegarder_site_ok i d w rows w1 :
  sauvegarder_site i d w = (Ok rows, w1) →
  ∃ dn, Store.update i d (db w) = inr (rows, dn)
        ∧ w1 = mkWorld dn (now w) (tail (faults w)) None (clients_cache w)
                 (trace w ++ [Gw (UpdateSite i d); ClearSites]).
Proof.
  unfold sauvegarder_site, bind, gateway, charger_sites_clear, ret.
  destruct (head (faults w)) as [[e|]|];
    destruct (Store.update i d (db w)) as [e'|[rows' dn]]; simpl; try done.
  all: intros [= <- <-]; exists dn; split; [done|];
       unfold log, set_sites_cache, set_db, set_faults; simpl;
       by rewrite <- app_assoc.
Qed.

Lemma ajouter_site_ok d w rows w1 :
  ajouter_site d w = (Ok rows, w1) →
  Store.insert d (db w) = (rows, db w1)
  ∧ w1 = mkWorld (db w1) (now w) (tail (faults w)) None (clients_cache w)
           (trace w ++ [Gw (InsertSite d); ClearSites]).
Proof.
  unfold ajouter_site, bind, gateway, charger_sites_clear, ret.
  destruct (head (faults w)) as [[e|]|]; simpl; try done.
  all: intros [= <- <-]; split; [done|];
       unfold log, set_sites_cache, set_db, set_faults; simpl;
       by rewrite <- app_assoc.
Qed.

Lemma read_after_clear w d t f :
  sites_cache w = None → goes_through f →
  ∃ w2, charger_sites (env d t f w) = (Ok (Store.select_sites d), w2).
Proof.
  intros Hc Hf. eexists. apply charger_sites_miss; simpl; [by rewrite Hc | done].
Qed.

(** C2. When [sauvegarder_site] or [ajouter_site] returns, the write has
    reached the store and the sites entry has been dropped, once, after the
    write and before the caller gets the rows back; the clients entry is
    untouched.  The next read of the sites, at any time, goes to the store
    as the write left it. *)
Theorem write_invalidates (w : World) :
  (∀ i d rows w1, sauvegarder_site i d w = (Ok rows, w1) →
     Store.update i d (db w) = inr (rows, db w1)
     ∧ trace w1 = trace w ++ [Gw (UpdateSite i d); ClearSites]
     ∧ sites_cache w1 = None
     ∧ clients_cache w1 = clients_cache w
     ∧ ∀ t f, goes_through f →
         ∃ w2, charger_sites (env (db w1) t f w1)
               = (Ok (Store.select_sites (db w1)), w2))
  ∧
  (∀ d rows w1, ajouter_site d w = (Ok rows, w1) →
     Store.insert d (db w) = (rows, db w1)
     ∧ trace w1 = trace w ++ [Gw (InsertSite d); ClearSites]
     ∧ sites_cache w1 = None
     ∧ clients_cache w1 = clients_cache w
     ∧ ∀ t f, goes_through f →
         ∃ w2, charger_sites (env (db w1) t f w1)
               = (Ok (Store.select_sites (db w1)), w2)).
Proof.
  split.
  - intros i d rows w1 H.
    destruct (sauvegarder_site_ok i d w rows w1 H) as (dn & Hup & ->). simpl.
    repeat split; try done.
    intros t f Hf. by apply read_after_clear.
  - intros d rows w1 H.
    destruct (ajouter_site_ok d w rows w1 H) as (Hins & Hw).
    rewrite Hw. simpl. repeat split; try done.
    intros t f Hf. by apply read_after_clear.
Qed.

(** Scenario C: with the sites cached at time 0, site 1 is set to 75 kWc;
    a read at the same instant already returns 75. *)
Lemma write_invalidates_witness :
  let w1 := (sauvegarder_site 1 power_75 cached0).2 in
  sites_cache cached0 = Some (0%Q, [alpha; beta])
  ∧ sites_cache w1 = None
  ∧ ∃ w2, charger_sites (env (db w1) 0 [] w1)
          = (Ok (Store.select_sites (db w1)), w2)
          ∧ map Site.nominal_power (Store.select_sites (db w1))
            = [Some 75%Q; Some 200%Q].
Proof.
  intros w1. split; [reflexivity|].
  destruct (write_invalidates cached0) as [Hup _].
  destruct (Hup 1%Z power_75
              (match (sauvegarder_site 1 power_75 cached0).1 with
               | Ok rows => rows
               | _ => []
               end) w1)
    as (_ & _ & Hnone & _ & Hread); [reflexivity|].
  split; [exact Hnone|].
  destruct (Hread 0%Q []) as (w2 & Hr); [intros e; discriminate|].
  exists w2. split; [exact Hr | reflexivity].
Defined.

(** ** Failures of the Gateway *)

Lemma app2 {A : Type} (l : list A) (x y : A) : (l ++ [x]) ++ [y] = l ++ [x; y].
Proof. by rewrite <- app_assoc. Qed.

Lemma app3 {A : Type} (l : list A) (x y z : A) :
  ((l ++ [x]) ++ [y]) ++ [z] = l ++ [x; y; z].
Proof. by rewrite <- !app_assoc. Qed.


Lemma form_ajout_submit_fails f w e :
  AddForm.add_name f ≠ "" → head (faults w) = Some (Some e) →
  form_ajout_submit f w
  = (Ok tt,
     mkWorld (db w) (now w) (tail (faults w)) (sites_cache w) (clients_cache w)
       (trace w ++ [Gw (InsertSite (insert_data f));
                    StError ("Erreur lors de l'ajout : " +:+ e)])).
Proof.
  intros Hn Hf. unfold form_ajout_submit.
  apply String.eqb_neq in Hn. rewrite Hn.
  unfold try_except, ajouter_site, bind.
  rewrite (gateway_fails _ _ w e Hf).
  unfold st_error, emit, log, set_faults; simpl. by rewrite app2.
Qed.

Lemma form_ajout_submit_ok f w :
  AddForm.add_name f ≠ "" → goes_through (faults w) →
  form_ajout_submit f w
  = (Control Rerun,
     mkWorld (Store.insert (insert_data f) (db w)).2 (now w) (tail (faults w))
       None (clients_cache w)
       (trace w ++ [Gw (InsertSite (insert_data f)); ClearSites;
                    StSuccess ("Site '" +:+ AddForm.add_name f +:+ "' ajouté !")])).
Proof.
  intros Hn Hf. unfold form_ajout_submit.
  apply String.eqb_neq in Hn. rewrite Hn.
  unfold try_except, ajouter_site, bind.
  rewrite (gateway_ok _ _ w (Store.insert (insert_data f) (db w)).1
             (Store.insert (insert_data f) (db w)).2 Hf eq_refl).
  unfold charger_sites_clear, ret, st_success, st_rerun, emit, log,
    set_sites_cache, set_db, set_faults; simpl.
  by rewrite app3.
Qed.




Lemma charger_sites_fails w e :
  fresh 60 (now w) (sites_cache w) = None → head (faults w) = Some (Some e) →
  charger_sites w
  = (Raise e,
     mkWorld (db w) (now w) (tail (faults w)) (sites_cache w) (clients_cache w)
       (trace w ++ [Gw SelectSites])).
Proof.
  intros H Hf. unfold charger_sites, cache_data. rewrite H.
  by rewrite (gateway_fails _ _ w e Hf).
Qed.








(** ** The add form *)

(** C8. An add form submitted with an empty name gets the message "Le nom
    est obligatoire." and nothing else: no call reaches the Gateway, the
    store and both cache entries are as before.  With a name, the first
    thing the submission does is the insert. *)
Theorem name_required (f : AddForm.t) (w : World) :
  (AddForm.add_name f = "" →
   ∃ w', form_ajout_submit f w = (Ok tt, w')
     ∧ trace w' = trace w ++ [StError "Le nom est obligatoire."]
     ∧ calls (trace w') = calls (trace w)
     ∧ db w' = db w ∧ faults w' = faults w
     ∧ sites_cache w' = sites_cache w ∧ clients_cache w' = clients_cache w)
  ∧ (AddForm.add_name f ≠ "" →
     ∃ r w' tr, form_ajout_submit f w = (r, w')
       ∧ trace w' = trace w ++ Gw (InsertSite (insert_data f)) :: tr).
Proof.
  split.
  - intros Hn. unfold form_ajout_submit. rewrite Hn. simpl.
    eexists. split; [done|]. simpl. repeat split; try done.
    unfold calls. rewrite omap_app. simpl. by rewrite app_nil_r.
  - intros Hn. destruct (head (faults w)) as [[e|]|] eqn:E.
    + do 3 eexists. split; [by apply form_ajout_submit_fails|]. done.
    + do 3 eexists.
      split; [apply form_ajout_submit_ok; [done | intros e; by rewrite E] | done].
    + do 3 eexists.
      split; [apply form_ajout_submit_ok; [done | intros e; by rewrite E] | done].
Qed.

Lemma name_required_witness :
  (∃ w', form_ajout_submit AddForm.blank cached0 = (Ok tt, w')
     ∧ trace w' = trace cached0 ++ [StError "Le nom est obligatoire."]
     ∧ calls (trace w') = calls (trace cached0)
     ∧ db w' = db cached0 ∧ faults w' = faults cached0
     ∧ sites_cache w' = sites_cache cached0
     ∧ clients_cache w' = clients_cache cached0)
  ∧ (∃ r w' tr,
       form_ajout_submit (AddForm.mk "Gamma" "" 0 "" None None) cached0 = (r, w')
       ∧ trace w'
         = trace cached0
           ++ Gw (InsertSite (insert_data (AddForm.mk "Gamma" "" 0 "" None None)))
              :: tr).
Proof.
  split.
  - apply (name_required AddForm.blank cached0). reflexivity.
  - apply (name_required (AddForm.mk "Gamma" "" 0 "" None None) cached0).
    discriminate.
Defined.

Lemma effective_power_of_null v :
  Site.nominal_power (Frame.site v) = None →
  fillna0 (Frame.nominal_power v) = 0%Q ∧ effective_power v = 0%Q.
Proof.
  unfold effective_power, fillna0, Frame.site; simpl.
  by destruct (Frame.nominal_power v) as [[|q]|].
Qed.

(** C7. Submitting the add form with a name and every other widget left as
    drawn sends an insert whose code, power, address, date and client are
    null; the row created carries those nulls, and in any frame a view of
    that row has effective power 0: it is 0 that the filter's [fillna(0)]
    reads in its power cell. *)
Theorem insert_name_only (n : string) (w : World) :
  n ≠ "" → goes_through (faults w) →
  insert_data (AddForm.mk n "" 0 "" None None)
    = Insert.mk n None None None None None
  ∧ ∃ s w',
      form_ajout_submit (AddForm.mk n "" 0 "" None None) w = (Control Rerun, w')
      ∧ Store.sites_mapping (db w') = Store.sites_mapping (db w) ++ [s]
      ∧ Site.name s = Some n
      ∧ Site.code s = None
      ∧ Site.nominal_power s = None
      ∧ Site.client_map_id s = None
      ∧ Site.ignore_site s = false
      ∧ ∀ v, Frame.site v = s →
          fillna0 (Frame.nominal_power v) = 0%Q ∧ effective_power v = 0%Q.
Proof.
  intros Hn Hf. split; [done|].
  eexists _, _. split.
  { apply form_ajout_submit_ok; [exact Hn | exact Hf]. }
  simpl. split; [done|]. do 5 (split; [done|]).
  intros v Hv. apply effective_power_of_null. by rewrite Hv.
Qed.

(** Scenario D. *)
Lemma insert_name_only_witness :
  ∃ s w',
    form_ajout_submit (AddForm.mk "Gamma" "" 0 "" None None) cached0
      = (Control Rerun, w')
    ∧ Store.sites_mapping (db w') = Store.sites_mapping (db cached0) ++ [s]
    ∧ Site.name s = Some "Gamma"
    ∧ Site.code s = None
    ∧ Site.nominal_power s = None
    ∧ Site.client_map_id s = None
    ∧ Site.ignore_site s = false
    ∧ ∀ v, Frame.site v = s →
        fillna0 (Frame.nominal_power v) = 0%Q ∧ effective_power v = 0%Q.
Proof.
  apply (insert_name_only "Gamma" cached0); [discriminate|].
  intros e. discriminate.
Defined.

(** ** The edit form *)

(** Text fields that are null come back as empty strings. *)
Lemma edit_defaults_null_text site :
  (Frame.name site = None →
     Update.name (update_data (edit_defaults site)) = "")
  ∧ (Frame.code site = None →
     Update.code (update_data (edit_defaults site)) = "")
  ∧ (Frame.address site = None →
     Update.address (update_data (edit_defaults site)) = "").
Proof.
  unfold update_data, edit_defaults; simpl.
  repeat split; intros ->; done.
Qed.

(** A power cell that is [None] (a column where no site has a power) comes
    back as zero. *)
Lemma edit_defaults_none_power site :
  Frame.nominal_power site = None →
  Update.nominal_power (update_data (edit_defaults site)) = Py.Fin 0.
Proof. unfold update_data, edit_defaults; simpl. by intros ->. Qed.

(** C10, at the failing input. With Alpha (50 kWc) and Gamma (no power) in
    the collection the power column is float64; Gamma's cell reads [NaN],
    which is truthy, so the power widget is given [NaN], not 0, and the
    unchanged form carries [NaN] into [update_data]. *)
Theorem edit_prefill_nan :
  ∃ site, assemble [alpha; gamma] acme !! 1%nat = Some site
    ∧ Frame.site site = gamma
    ∧ Site.nominal_power gamma = None
    ∧ EditForm.new_power (edit_defaults site) = Py.NaN
    ∧ Update.nominal_power (update_data (edit_defaults site)) = Py.NaN.
Proof. eexists. repeat split. Qed.

(** ** The working set *)

Lemma insert_by_Forall {A : Type} (P : A → Prop) key x (l : list A) :
  P x → Forall P l → Forall P (Store.insert_by key x l).
Proof.
  intros Hx Hl. induction Hl as [|y l Hy Hl IH]; simpl.
  - by constructor.
  - destruct (Store.name_le (key x) (key y)); repeat constructor; done.
Qed.

Lemma order_by_Forall {A : Type} (P : A → Prop) key (l : list A) :
  Forall P l → Forall P (Store.order_by key l).
Proof.
  unfold Store.order_by. induction 1 as [|x l Hx Hl IH]; simpl.
  - constructor.
  - by apply insert_by_Forall.
Qed.

Lemma select_sites_visible d : visible (Store.select_sites d).
Proof.
  unfold visible, Store.select_sites. apply order_by_Forall.
  apply Forall_forall. intros s Hs.
  apply list_elem_of_In, filter_In in Hs as [_ Hs].
  by destruct (Site.ignore_site s).
Qed.

Lemma charger_sites_visible w r w' :
  cache_ok w → charger_sites w = (r, w') →
  cache_ok w' ∧ ∀ v, r = Ok v → visible v.
Proof.
  intros Hok. unfold charger_sites, cache_data.
  destruct (fresh 60 (now w) (sites_cache w)) as [v|] eqn:E.
  - intros [= <- <-]. split; [done|]. intros v' [= <-].
    unfold fresh in E. destruct (sites_cache w) as [[t0 v0]|] eqn:Ec; [|done].
    destruct (Qle_bool (t0 + 60) (now w)); [done|]. injection E as <-.
    by apply (Hok t0).
  - unfold gateway. destruct (head (faults w)) as [[e|]|]; simpl.
    all: intros [= <- <-]; split; try done.
    all: try (intros t v; simpl; intros [= <- <-]).
    all: try (intros v [= <-]).
    all: try apply select_sites_visible.
    all: intros t v; simpl; apply Hok.
Qed.

Lemma charger_clients_sites_cache w r w' :
  charger_clients w = (r, w') → sites_cache w' = sites_cache w.
Proof.
  unfold charger_clients, cache_data, bind, gateway, ret.
  destruct (fresh 300 (now w) (clients_cache w)) as [v|].
  - by intros [= <- <-].
  - destruct (head (faults w)) as [[e|]|]; simpl; by intros [= <- <-].
Qed.

Section Shrinks.
Context {A B : Type}.

Lemma shrinks_refl w : shrinks w w.
Proof. by left. Qed.

Lemma shrinks_trans w1 w2 w3 : shrinks w1 w2 → shrinks w2 w3 → shrinks w1 w3.
Proof. unfold shrinks. intros [H1|H1] [H2|H2]; rewrite ?H2, ?H1; auto. Qed.

Lemma preserves_ret (a : A) : preserves shrinks (ret a).
Proof. intros w r w' [= <- <-]. apply shrinks_refl. Qed.

Lemma preserves_emit e : preserves shrinks (emit e).
Proof. intros w r w' [= <- <-]. by left. Qed.

Lemma preserves_rerun : preserves shrinks (@st_rerun A).
Proof. intros w r w' [= <- <-]. apply shrinks_refl. Qed.

Lemma preserves_stop : preserves shrinks (@st_stop A).
Proof. intros w r w' [= <- <-]. apply shrinks_refl. Qed.

Lemma preserves_clear : preserves shrinks charger_sites_clear.
Proof. intros w r w' [= <- <-]. by right. Qed.

Lemma preserves_gateway c (op : Store.t → string + (A * Store.t)) :
  preserves shrinks (gateway c op).
Proof.
  intros w r w'. unfold gateway.
  destruct (head (faults w)) as [[e|]|]; try destruct (op (db w)) as [e'|[a d]].
  all: intros [= <- <-]; by left.
Qed.

Lemma preserves_bind (m : M A) (k : A → M B) :
  preserves shrinks m → (∀ a, preserves shrinks (k a)) →
  preserves shrinks (bind m k).
Proof.
  intros Hm Hk w r w'. unfold bind.
  destruct (m w) as [[a|e|c] w1] eqn:E; intros H.
  - apply shrinks_trans with w1; [by apply (Hm w _ _ E) | by apply (Hk a w1 r)].
  - injection H as <- <-. by apply (Hm w _ _ E).
  - injection H as <- <-. by apply (Hm w _ _ E).
Qed.

Lemma preserves_try (body : M A) (handler : string → M A) :
  preserves shrinks body → (∀ e, preserves shrinks (handler e)) →
  preserves shrinks (try_except body handler).
Proof.
  intros Hb Hh w r w'. unfold try_except.
  destruct (body w) as [[a|e|c] w1] eqn:E; intros H.
  - injection H as <- <-. by apply (Hb w _ _ E).
  - apply shrinks_trans with w1; [by apply (Hb w _ _ E) | by apply (Hh e w1 r)].
  - injection H as <- <-. by apply (Hb w _ _ E).
Qed.
End Shrinks.

Create HintDb shrink.
#[local] Hint Resolve preserves_ret preserves_emit preserves_rerun preserves_stop
  preserves_clear preserves_gateway preserves_bind preserves_try : shrink.

Ltac shrink := eauto 12 with shrink.

Lemma preserves_form_edit site f : preserves shrinks (form_edit_submit site f).
Proof.
  unfold form_edit_submit, sauvegarder_site, st_success, st_error. shrink.
Qed.

Lemma preserves_form_ajout f : preserves shrinks (form_ajout_submit f).
Proof.
  unfold form_ajout_submit, ajouter_site, st_success, st_error.
  destruct (String.eqb (AddForm.add_name f) ""); shrink.
Qed.

Lemma preserves_tab_edit inp frame : preserves shrinks (tab_edit inp frame).
Proof.
  unfold tab_edit. destruct (sites_options frame) as [|[k first] rest].
  - unfold st_info. shrink.
  - destruct (edit_submitted inp); [apply preserves_form_edit | shrink].
Qed.

Lemma preserves_tab_ajout inp : preserves shrinks (tab_ajout inp).
Proof.
  unfold tab_ajout. destruct (ajout_submitted inp); [apply preserves_form_ajout | shrink].
Qed.

Lemma cache_ok_shrinks w w' : cache_ok w → shrinks w w' → cache_ok w'.
Proof.
  unfold cache_ok. intros Hok [H|H] t v; rewrite H; [apply Hok | done].
Qed.

Lemma assemble_visible sites clients :
  visible sites →
  Forall (fun r => Frame.ignore_site r = false) (assemble sites clients).
Proof.
  unfold visible, assemble. intros H. apply Forall_fmap.
  eapply Forall_impl; [exact H|]. by intros s Hs.
Qed.

Lemma apply_filters_Forall (P : Frame.row → Prop) frame sel lo hi :
  Forall P frame → Forall P (apply_filters frame sel lo hi).
Proof.
  rewrite apply_filters_keep. intros H. apply Forall_forall.
  intros r Hr. apply list_elem_of_In, filter_In in Hr as [Hr _].
  rewrite Forall_forall in H. by apply H, list_elem_of_In.
Qed.

(** One run of the script keeps the sites entry clean, and the frames of
    the page it draws hold visible sites only. *)
Lemma main_visible inp w r w' :
  cache_ok w → main inp w = (r, w') →
  cache_ok w'
  ∧ ∀ page, r = Ok page →
      Forall (fun v => Frame.ignore_site v = false) (df page)
      ∧ Forall (fun v => Frame.ignore_site v = false) (df_filtre page).
Proof.
  intros Hok. unfold main at 1. unfold bind at 1.
  destruct (charger_sites w) as [[sites|e|c] w1] eqn:E1.
  2,3: intros [= <- <-]; split;
       [by apply (charger_sites_visible w _ _ Hok E1) | done].
  destruct (charger_sites_visible w _ _ Hok E1) as [Hok1 Hvis].
  specialize (Hvis sites eq_refl).
  unfold bind at 1.
  destruct (charger_clients w1) as [[clients|e|c] w2] eqn:E2.
  2,3: intros [= <- <-]; split; [|done];
       intros t v; rewrite (charger_clients_sites_cache _ _ _ E2); apply Hok1.
  assert (Hok2 : cache_ok w2).
  { intros t v. rewrite (charger_clients_sites_cache _ _ _ E2). apply Hok1. }
  destruct sites as [|s sites].
  - unfold bind, st_warning, emit, st_stop. intros [= <- <-]. split; [|done].
    intros t v. simpl. apply Hok2.
  - set (frame := assemble (s :: sites) clients).
    set (narrowed := apply_filters frame _ _ _).
    unfold bind at 1.
    destruct (tab_edit inp narrowed w2) as [[u|e|c] w3] eqn:E3.
    2,3: intros [= <- <-]; split; [|done];
         apply (cache_ok_shrinks w2); [done | by apply (preserves_tab_edit _ _ _ _ _ E3)].
    assert (Hok3 : cache_ok w3).
    { apply (cache_ok_shrinks w2); [done | by apply (preserves_tab_edit _ _ _ _ _ E3)]. }
    unfold bind at 1.
    destruct (tab_ajout inp w3) as [[u'|e|c] w4] eqn:E4.
    2,3: intros [= <- <-]; split; [|done];
         apply (cache_ok_shrinks w3); [done | by apply (preserves_tab_ajout _ _ _ _ E4)].
    unfold ret. intros [= <- <-]. split.
    + apply (cache_ok_shrinks w3); [done | by apply (preserves_tab_ajout _ _ _ _ E4)].
    + intros page [= <-]. simpl.
      assert (Hf : Forall (fun v => Frame.ignore_site v = false) frame)
        by by apply assemble_visible.
      split; [done | by apply apply_filters_Forall].
Qed.

Lemma reachable_cache_ok w : reachable w → cache_ok w.
Proof.
  intros [d Hr]. revert w Hr. apply rtc_ind_r.
  - by intros t v.
  - intros w1 w2 _ Hstep IH.
    destruct Hstep as [inp w1 r w2 Hrun | w1 d' t f].
    + by apply (main_visible inp w1 r w2).
    + done.
Qed.

(** C9. In every world the application can be in, a read of the site
    collection returns no site with [ignore_site] set, and neither the
    assembled frame nor the filtered frame of a page holds one. *)
Theorem working_set_visible (w : World) :
  reachable w →
  (∀ sites w', charger_sites w = (Ok sites, w') → visible sites)
  ∧ (∀ inp page w', main inp w = (Ok page, w') →
       Forall (fun v => Frame.ignore_site v = false) (df page)
       ∧ Forall (fun v => Frame.ignore_site v = false) (df_filtre page)).
Proof.
  intros Hr. apply reachable_cache_ok in Hr. split.
  - intros sites w' H. by apply (charger_sites_visible w _ _ Hr H).
  - intros inp page w' H. by apply (main_visible inp w _ _ Hr H).
Qed.

Lemma working_set_visible_witness :
  reachable (start store0)
  ∧ ∃ page w', main browse (start store0) = (Ok page, w')
      ∧ map Frame.name (df page) = [Some "Alpha"; Some "Beta"]
      ∧ Forall (fun v => Frame.ignore_site v = false) (df page)
      ∧ Forall (fun v => Frame.ignore_site v = false) (df_filtre page).
Proof.
  assert (Hr : reachable (start store0)) by (exists store0; apply rtc_refl).
  split; [exact Hr|].
  eexists _, _. split; [reflexivity|]. split; [reflexivity|].
  destruct (working_set_visible (start store0) Hr) as [_ Hpage].
  apply (Hpage browse _ _ eq_refl).
Defined.

(** * Further properties of the script *)

(** ** The client selector *)

Lemma unique_from_elem seen l x :
  x ∈ unique_from seen l ↔ x ∈ l ∧ x ∉ seen.
Proof.
  revert seen. induction l as [|y l IH]; intros seen; simpl.
  - split; [by intros ?%elem_of_nil | by intros [?%elem_of_nil _]].
  - case_bool_decide as Hy.
    + rewrite IH, elem_of_cons. split; [tauto|].
      intros [[->|Hx] Hn]; [done | tauto].
    + rewrite !elem_of_cons, IH, elem_of_cons. split.
      * intros [->|(Hx & Hn)]; [tauto|]. split; [tauto|]. tauto.
      * intros [[->|Hx] Hn]; [tauto|].
        destruct (decide (x = y)) as [->|Hne]; [tauto|]. right. tauto.
Qed.

Lemma unique_from_NoDup seen l : NoDup (unique_from seen l).
Proof.
  revert seen. induction l as [|y l IH]; intros seen; simpl.
  - constructor.
  - case_bool_decide as Hy; [apply IH|].
    constructor; [|apply IH].
    rewrite unique_from_elem, elem_of_cons. tauto.
Qed.

Lemma insort_Permutation x l : insort x l ≡ₚ x :: l.
Proof.
  induction l as [|y l IH]; simpl; [done|].
  destruct (String.leb x y); [done|].
  rewrite IH. apply Permutation_swap.
Qed.

Lemma sorted_Permutation l : sorted l ≡ₚ l.
Proof.
  unfold sorted. induction l as [|x l IH]; simpl; [done|].
  by rewrite insort_Permutation, IH.
Qed.

Lemma insort_Sorted x l :
  Sorted (fun a b => String.leb a b = true) l →
  Sorted (fun a b => String.leb a b = true) (insort x l).
Proof.
  induction 1 as [|y l Hl IH Hhd]; simpl.
  - repeat constructor.
  - destruct (String.leb x y) eqn:E.
    + constructor; [by constructor | by constructor].
    + constructor; [done|].
      assert (Hyx : String.leb y x = true).
      { destruct (String.leb_total x y) as [H|H]; [congruence | done]. }
      destruct Hhd as [|z l Hyz]; simpl.
      * by constructor.
      * destruct (String.leb x z); by constructor.
Qed.

Lemma sorted_Sorted l : Sorted (fun a b => String.leb a b = true) (sorted l).
Proof.
  unfold sorted. induction l as [|x l IH]; simpl; [constructor|].
  by apply insort_Sorted.
Qed.

(** X1. The client selector offers "Tous" first, then each client name
    that occurs in the frame, once, in ascending order; it offers no name
    that no site carries. *)
Theorem client_options (frame : list Frame.row) :
  head (clients_uniques frame) = Some TOUS
  ∧ NoDup (tail (clients_uniques frame))
  ∧ Sorted (fun a b => String.leb a b = true) (tail (clients_uniques frame))
  ∧ ∀ n, n ∈ tail (clients_uniques frame)
         ↔ ∃ v, v ∈ frame ∧ Frame.client_name v = n.
Proof.
  unfold clients_uniques; simpl. split; [done|]. split; [|split].
  - rewrite sorted_Permutation. apply unique_from_NoDup.
  - apply sorted_Sorted.
  - intros n. rewrite sorted_Permutation. unfold unique.
    rewrite unique_from_elem, list_elem_of_fmap. split.
    + intros [(v & -> & Hv) _]. eauto.
    + intros (v & Hv & <-). split; [eauto | apply not_elem_of_nil].
Qed.

Example scenario_A_options :
  clients_uniques (assemble [alpha; beta] acme) = [TOUS; "Acme"; NON_ASSIGNE].
Proof. reflexivity. Qed.

(** ** The site selector of the edit tab *)

Section Dict.
Context {V : Type}.

Lemma dict_get_set (k k' : string) (v : V) (d : list (string * V)) :
  dict_get k (dict_set k' v d) = if decide (k' = k) then Some v else dict_get k d.
Proof.
  induction d as [|[k0 v0] d IH]; simpl.
  - destruct (String.eqb_spec k' k); by case_decide.
  - destruct (String.eqb_spec k0 k') as [->|Hne]; simpl.
    + destruct (String.eqb_spec k' k); by case_decide.
    + destruct (String.eqb_spec k0 k) as [->|Hne']; [|done].
      by case_decide.
Qed.

Lemma dict_set_keys (k : string) (v : V) (d : list (string * V)) :
  (dict_set k v d).*1 = if decide (k ∈ d.*1) then d.*1 else d.*1 ++ [k].
Proof.
  induction d as [|[k0 v0] d IH].
  - rewrite decide_False; [done | apply not_elem_of_nil].
  - cbn [dict_set]. destruct (String.eqb_spec k0 k) as [->|Hne].
    + rewrite decide_True; [done | by left].
    + rewrite fmap_cons, IH. cbn [fst fmap list_fmap].
      destruct (decide (k ∈ d.*1)) as [Hk|Hk].
      * rewrite decide_True; [done | by right].
      * rewrite decide_False; [done|].
        intros [->|?]%elem_of_cons; done.
Qed.

Lemma dict_set_NoDup (k : string) (v : V) (d : list (string * V)) :
  NoDup d.*1 → NoDup (dict_set k v d).*1.
Proof.
  intros Hd. rewrite dict_set_keys. case_decide as H; [done|].
  apply NoDup_app. split; [done|]. split; [|apply NoDup_singleton].
  intros x Hx ->%list_elem_of_singleton. done.
Qed.

Lemma dict_get_NoDup (k : string) (v : V) (d : list (string * V)) :
  NoDup d.*1 → (k, v) ∈ d → dict_get k d = Some v.
Proof.
  induction d as [|[k0 v0] d IH]; intros Hnd Hkv.
  - by apply elem_of_nil in Hkv.
  - apply NoDup_cons in Hnd as [Hk0 Hnd]. simpl.
    apply elem_of_cons in Hkv as [[= -> ->]|Hkv].
    + by rewrite String.eqb_refl.
    + destruct (String.eqb_spec k0 k) as [->|Hne]; [|by apply IH].
      exfalso. apply Hk0. apply list_elem_of_fmap. by exists (k, v).
Qed.

Lemma dict_get_in (k : string) (v : V) (d : list (string * V)) :
  dict_get k d = Some v → (k, v) ∈ d.
Proof.
  induction d as [|[k0 v0] d IH]; simpl; [done|].
  destruct (String.eqb_spec k0 k) as [->|Hne].
  - intros [= ->]. by left.
  - intros H. right. by apply IH.
Qed.

Lemma dict_get_key (k : string) (d : list (string * V)) :
  is_Some (dict_get k d) → k ∈ d.*1.
Proof.
  induction d as [|[k0 v0] d IH]; simpl; [by intros [? ?]|].
  destruct (String.eqb_spec k0 k) as [->|Hne]; [by left|].
  intros H. right. by apply IH.
Qed.
End Dict.

Lemma last_filter_snoc {A : Type} (P : A → Prop) `{!∀ x, Decision (P x)}
    (l : list A) (x : A) :
  last (filter P (l ++ [x]))
  = if decide (P x) then Some x else last (filter P l).
Proof.
  rewrite filter_app, filter_cons, filter_nil.
  case_decide; [apply last_snoc | by rewrite app_nil_r].
Qed.

Lemma sites_options_get frame k :
  dict_get k (sites_options frame)
  = last (filter (fun s => site_label s = k) frame).
Proof.
  unfold sites_options. induction frame as [|s frame IH] using rev_ind; [done|].
  by rewrite foldl_snoc, dict_get_set, last_filter_snoc, IH.
Qed.

Lemma sites_options_NoDup frame : NoDup (sites_options frame).*1.
Proof.
  unfold sites_options. induction frame as [|s frame IH] using rev_ind.
  - constructor.
  - rewrite foldl_snoc. by apply dict_set_NoDup.
Qed.

Lemma last_filter_elem {A : Type} (P : A → Prop) `{!∀ x, Decision (P x)}
    (l : list A) (x : A) :
  last (filter P l) = Some x → x ∈ l ∧ P x.
Proof.
  intros Hl. apply last_Some_elem_of in Hl.
  apply list_elem_of_filter in Hl. tauto.
Qed.

Lemma sites_options_in frame k v :
  (k, v) ∈ sites_options frame → v ∈ frame ∧ site_label v = k.
Proof.
  intros Hkv. apply (dict_get_NoDup _ _ _ (sites_options_NoDup frame)) in Hkv.
  rewrite sites_options_get in Hkv. by apply last_filter_elem in Hkv.
Qed.

Lemma sites_options_key frame v :
  v ∈ frame → site_label v ∈ (sites_options frame).*1.
Proof.
  intros Hv. apply dict_get_key. rewrite sites_options_get.
  destruct (last (filter (fun s => site_label s = site_label v) frame))
    as [x|] eqn:E; [by eexists|].
  apply last_None in E.
  assert (v ∈ filter (fun s => site_label s = site_label v) frame)
    as Hf by by apply list_elem_of_filter.
  rewrite E in Hf. by apply elem_of_nil in Hf.
Qed.

(** X2. The site selector is a dict keyed by "name (code)": its keys are
    distinct, and a key leads to the last row of the filtered frame that
    carries this label.  Every row offered is a row of the filtered frame;
    of several rows with the same name and code only the last can be
    picked; an empty frame offers nothing. *)
Theorem site_selector (frame : list Frame.row) :
  NoDup (sites_options frame).*1
  ∧ (∀ k, dict_get k (sites_options frame)
          = last (filter (fun s => site_label s = k) frame))
  ∧ (∀ k v, (k, v) ∈ sites_options frame → v ∈ frame ∧ site_label v = k)
  ∧ (∀ v, v ∈ frame → site_label v ∈ (sites_options frame).*1)
  ∧ (sites_options frame = [] ↔ frame = []).
Proof.
  split; [apply sites_options_NoDup|].
  split; [apply sites_options_get|].
  split; [apply sites_options_in|].
  split; [apply sites_options_key|].
  split.
  - intros Hnil. destruct frame as [|v frame]; [done|].
    pose proof (sites_options_key (v :: frame) v (list_elem_of_here _ _)) as Hk.
    rewrite Hnil in Hk. by apply elem_of_nil in Hk.
  - by intros ->.
Qed.

(** Two sites with the same name and code: only the second can be edited. *)
Example site_selector_collision :
  let twin := Frame.mk 7 (Some "Alpha") (Some "A1") None None None None false NON_ASSIGNE in
  let frame := assemble [alpha] acme ++ [twin] in
  map snd (sites_options frame) = [twin].
Proof. reflexivity. Qed.

(** ** The edit tab *)

Lemma form_edit_submit_trace site f w :
  ∃ rest,
    trace (form_edit_submit site f w).2
    = trace w ++ Gw (UpdateSite (Frame.id site) (update_data f)) :: rest
    ∧ ∀ c, Gw c ∉ rest.
Proof.
  unfold form_edit_submit, try_except, sauvegarder_site, bind, gateway,
    charger_sites_clear, ret, st_success, st_error, st_rerun, emit.
  destruct (head (faults w)) as [[e|]|];
    try destruct (Store.update _ _ (db w)) as [e'|[rows d]]; simpl.
  all: rewrite <- ?app_assoc; simpl; eexists; split; [reflexivity|].
  all: intros c Hc; repeat (apply elem_of_cons in Hc as [Hc|Hc]; [done|]).
  all: by apply elem_of_nil in Hc.
Qed.

(** The site picked in the edit tab.  The script looks the chosen label up
    in the whole dict; [tab_edit] looks it up behind the first entry and
    falls back on the first entry, which is the same row since the keys
    are distinct. *)
Lemma tab_edit_site frame k0 first rest (sel : option string) :
  sites_options frame = (k0, first) :: rest →
  default first (sel ≫= fun k => dict_get k rest)
  = default first (sel ≫= fun k => dict_get k (sites_options frame)).
Proof.
  intros E. destruct sel as [k|]; [|done]. simpl. rewrite E. simpl.
  destruct (String.eqb_spec k0 k) as [->|Hne]; [|done].
  destruct (dict_get k rest) as [v|] eqn:Eg; [|done].
  pose proof (sites_options_NoDup frame) as Hnd. rewrite E in Hnd.
  apply NoDup_cons in Hnd as [Hk _]. exfalso. apply Hk.
  apply (dict_get_key k rest). by exists v.
Qed.

(** X3. The edit tab can only update a site that is in the filtered frame:
    an update call issued by the tab carries the id of one of its rows.
    When no site passes the filters the tab prints its notice and does
    nothing else, whatever was submitted; when nothing is submitted it
    leaves the world as it is. *)
Theorem edit_targets_listed (inp : Inputs) (frame : list Frame.row) (w : World) :
  (∀ i d, Gw (UpdateSite i d) ∈ trace (tab_edit inp frame w).2 →
          Gw (UpdateSite i d) ∈ trace w ∨ ∃ v, v ∈ frame ∧ Frame.id v = i)
  ∧ (frame = [] →
     tab_edit inp frame w
     = (Ok tt, log (StInfo "Aucun site à afficher avec les filtres actuels.") w))
  ∧ (frame ≠ [] → edit_submitted inp = None → tab_edit inp frame w = (Ok tt, w)).
Proof.
  split; [|split].
  - intros i d. unfold tab_edit.
    destruct (sites_options frame) as [|[k0 first] rest] eqn:E.
    + simpl. rewrite elem_of_app. intros [H|H]; [by left|].
      apply list_elem_of_singleton in H. done.
    + set (site := default first _).
      assert (Hsite : site ∈ frame).
      { assert (Hfirst : first ∈ frame).
        { apply (sites_options_in frame k0 first). rewrite E. by left. }
        subst site. destruct (edit_select inp) as [k|]; [|done]. simpl.
        destruct (dict_get k rest) as [v|] eqn:Eg; [|done]. simpl.
        apply dict_get_in in Eg.
        apply (sites_options_in frame k v). rewrite E. by right. }
      destruct (edit_submitted inp) as [f|]; [|by left].
      destruct (form_edit_submit_trace site (default (edit_defaults site) f) w)
        as (more & -> & Hmore).
      rewrite elem_of_app, elem_of_cons. intros [H|[H|H]]; [by left | | ].
      * injection H as -> _. right. by exists site.
      * by apply Hmore in H.
  - by intros ->.
  - intros Hne Hsub. unfold tab_edit. rewrite Hsub.
    destruct (sites_options frame) as [|[k0 first] rest] eqn:E; [|done].
    destruct frame as [|v frame]; [done|].
    pose proof (sites_options_key (v :: frame) v (list_elem_of_here _ _)) as Hk.
    rewrite E in Hk. by apply elem_of_nil in Hk.
Qed.

(** ** Runs that do not write *)

Lemma quiet_refl w : quiet w w.
Proof. by repeat split. Qed.

Lemma quiet_trans w1 w2 w3 : quiet w1 w2 → quiet w2 w3 → quiet w1 w3.
Proof.
  intros (Hd1 & Ht1 & Hc1) (Hd2 & Ht2 & Hc2).
  repeat split; [congruence | congruence | auto].
Qed.

Lemma preserves_bind_trans {A B : Type} (R : World → World → Prop)
    (m : M A) (k : A → M B) :
  (∀ w1 w2 w3, R w1 w2 → R w2 w3 → R w1 w3) →
  preserves R m → (∀ a, preserves R (k a)) → preserves R (bind m k).
Proof.
  intros Htrans Hm Hk w r w'. unfold bind.
  destruct (m w) as [[a|e|c] w1] eqn:E; intros H.
  - apply Htrans with w1; [by apply (Hm w _ _ E) | by apply (Hk a w1 r)].
  - injection H as <- <-. by apply (Hm w _ _ E).
  - injection H as <- <-. by apply (Hm w _ _ E).
Qed.

Lemma writes_snoc tr e : is_write e = false → writes (tr ++ [e]) = writes tr.
Proof.
  intros He. unfold writes. rewrite List.filter_app. simpl.
  by rewrite He, app_nil_r.
Qed.

Lemma quiet_emit e : is_write e = false → preserves quiet (emit e).
Proof.
  intros He w r w' [= <- <-]. repeat split; simpl; [by apply writes_snoc | done].
Qed.

Lemma quiet_ret {A : Type} (a : A) : preserves quiet (ret a).
Proof. intros w r w' [= <- <-]. apply quiet_refl. Qed.

Lemma quiet_stop {A : Type} : preserves quiet (@st_stop A).
Proof. intros w r w' [= <- <-]. apply quiet_refl. Qed.

Lemma quiet_charger_sites : preserves quiet charger_sites.
Proof.
  intros w r w'. unfold charger_sites, cache_data, gateway.
  destruct (fresh 60 (now w) (sites_cache w)) as [v|].
  - intros [= <- <-]. apply quiet_refl.
  - destruct (head (faults w)) as [[e|]|]; simpl; intros [= <- <-].
    all: repeat split; simpl; try done; by apply writes_snoc.
Qed.

Lemma quiet_charger_clients : preserves quiet charger_clients.
Proof.
  intros w r w'. unfold charger_clients, cache_data, bind, gateway, ret.
  destruct (fresh 300 (now w) (clients_cache w)) as [v|].
  - intros [= <- <-]. apply quiet_refl.
  - destruct (head (faults w)) as [[e|]|]; simpl; intros [= <- <-].
    all: repeat split; simpl; try done; by apply writes_snoc.
Qed.

Lemma quiet_tab_edit inp frame :
  edit_submitted inp = None → preserves quiet (tab_edit inp frame).
Proof.
  intros Hsub. unfold tab_edit. rewrite Hsub.
  destruct (sites_options frame) as [|[k0 first] rest].
  - by apply quiet_emit.
  - apply quiet_ret.
Qed.

Lemma quiet_tab_ajout inp :
  ajout_submitted inp = None → preserves quiet (tab_ajout inp).
Proof. intros Hsub. unfold tab_ajout. rewrite Hsub. apply quiet_ret. Qed.

Lemma quiet_stop_branch {A : Type} :
  preserves quiet (st_warning "Aucun site trouvé dans la base." ;; @st_stop A).
Proof.
  apply preserves_bind_trans; [apply quiet_trans | by apply quiet_emit |].
  intros _. apply quiet_stop.
Qed.

Lemma quiet_main inp :
  edit_submitted inp = None → ajout_submitted inp = None →
  preserves quiet (main inp).
Proof.
  intros He Ha. unfold main.
  apply preserves_bind_trans; [apply quiet_trans | apply quiet_charger_sites |].
  intros sites.
  apply preserves_bind_trans; [apply quiet_trans | apply quiet_charger_clients |].
  intros clients. destruct sites as [|s sites]; [apply quiet_stop_branch|].
  apply preserves_bind_trans; [apply quiet_trans | by apply quiet_tab_edit |].
  intros _.
  apply preserves_bind_trans; [apply quiet_trans | by apply quiet_tab_ajout |].
  intros _. apply quiet_ret.
Qed.

(** X4. A run in which no form is submitted never writes: the store is as
    before, the run adds no update, no insert and no cache clear to the
    trace, and a sites entry that was there is still there. *)
Theorem browse_never_writes (inp : Inputs) (w : World) :
  edit_submitted inp = None → ajout_submitted inp = None →
  db (main inp w).2 = db w
  ∧ writes (trace (main inp w).2) = writes (trace w)
  ∧ (sites_cache (main inp w).2 = None → sites_cache w = None).
Proof.
  intros He Ha.
  apply (quiet_main inp He Ha w (main inp w).1 (main inp w).2).
  by destruct (main inp w).
Qed.

Lemma browse_never_writes_witness :
  db (main browse cached0).2 = store0
  ∧ writes (trace (main browse cached0).2) = []
  ∧ (sites_cache (main browse cached0).2 = None → sites_cache cached0 = None).
Proof. apply (browse_never_writes browse cached0); reflexivity. Defined.

(** X5. The emptiness test comes before the tabs: when the read of the
    sites returns an empty list the run draws no page and writes nothing,
    whatever was submitted.  In particular a submitted add form is dropped,
    so the first site of an empty table cannot be added from the page. *)
Theorem empty_collection_stops (inp : Inputs) (w : World) :
  (charger_sites w).1 = Ok [] →
  (∀ page, (main inp w).1 ≠ Ok page)
  ∧ db (main inp w).2 = db w
  ∧ writes (trace (main inp w).2) = writes (trace w).
Proof.
  intros Hs.
  destruct (charger_sites w) as [r1 w1] eqn:E1. simpl in Hs. subst r1.
  destruct (charger_clients w1) as [rc w2] eqn:E2.
  pose proof (quiet_charger_sites w _ _ E1) as (Hd1 & Ht1 & _).
  pose proof (quiet_charger_clients w1 _ _ E2) as (Hd2 & Ht2 & _).
  unfold main, bind. rewrite E1, E2.
  destruct rc as [clients|e|c]; simpl.
  - split; [done|]. split; [congruence|].
    rewrite writes_snoc; [congruence | done].
  - split; [done|]. split; congruence.
  - split; [done|]. split; congruence.
Qed.

Lemma empty_collection_stops_witness :
  let submit := mkInputs TOUS 0 None None None
                  (Some (AddForm.mk "Gamma" "" 0 "" None None)) in
  let w := start (Store.mk [hidden] []) in
  (∀ page, (main submit w).1 ≠ Ok page)
  ∧ db (main submit w).2 = db w
  ∧ writes (trace (main submit w).2) = writes (trace w).
Proof.
  intros submit w. apply (empty_collection_stops submit w). reflexivity.
Defined.

Lemma calls_snoc_ui tr e :
  (∀ c, e ≠ Gw c) → calls (tr ++ [e]) = calls tr.
Proof.
  intros He. unfold calls. rewrite omap_app. simpl.
  destruct e as [c| | | | |]; simpl; rewrite ?app_nil_r; try done.
  by destruct (He c).
Qed.

Lemma main_warm inp w sites clients :
  fresh 60 (now w) (sites_cache w) = Some sites →
  fresh 300 (now w) (clients_cache w) = Some clients →
  edit_submitted inp = None → ajout_submitted inp = None →
  ∃ msgs,
    (∀ e, e ∈ msgs → ∀ c, e ≠ Gw c)
    ∧ (main inp w).2
      = mkWorld (db w) (now w) (faults w) (sites_cache w) (clients_cache w)
          (trace w ++ msgs)
    ∧ (main inp w).1
      = match sites with
        | [] => Control Stop
        | _ =>
            Ok (mkPage (assemble sites clients)
                  (apply_filters (assemble sites clients) (filtre_client inp)
                     (Py.Fin (puissance_min inp))
                     (match puissance_max inp with
                      | Some q => Py.Fin q
                      | None => default_puissance_max (assemble sites clients)
                      end)))
        end.
Proof.
  intros Hs Hc He Ha. unfold main, bind.
  rewrite (charger_sites_hit w sites Hs), (charger_clients_hit w clients Hc).
  destruct sites as [|s sites].
  - exists [StWarning "Aucun site trouvé dans la base."]. simpl.
    split; [|done]. by intros e ->%list_elem_of_singleton c.
  - unfold tab_edit, tab_ajout. rewrite He, Ha.
    destruct (sites_options _) as [|[k0 first] rest]; simpl.
    + exists [StInfo "Aucun site à afficher avec les filtres actuels."].
      split; [|done]. by intros e ->%list_elem_of_singleton c.
    + exists []. rewrite app_nil_r. split; [|by destruct w].
      by intros e ?%elem_of_nil.
Qed.

Lemma calls_app_ui tr msgs :
  (∀ e, e ∈ msgs → ∀ c, e ≠ Gw c) → calls (tr ++ msgs) = calls tr.
Proof.
  intros H. induction msgs as [|e msgs IH] using rev_ind.
  - by rewrite app_nil_r.
  - rewrite app_assoc, calls_snoc_ui.
    + apply IH. intros e' He'. apply H. apply elem_of_app. by left.
    + apply H. apply elem_of_app. right. by left.
Qed.

(** X6. While both cache entries are fresh, a run without submission is
    served from the caches alone: it calls the Gateway for nothing and
    leaves the store, the caches and the planned faults as they were; and
    the two reads hand the run the cached sites and clients whatever the
    store holds and whatever the state of the network. *)
Theorem warm_run_local (inp : Inputs) (w : World)
    (sites : list Site.row) (clients : gmap Z (option string)) :
  fresh 60 (now w) (sites_cache w) = Some sites →
  fresh 300 (now w) (clients_cache w) = Some clients →
  edit_submitted inp = None → ajout_submitted inp = None →
  calls (trace (main inp w).2) = calls (trace w)
  ∧ db (main inp w).2 = db w
  ∧ faults (main inp w).2 = faults w
  ∧ sites_cache (main inp w).2 = sites_cache w
  ∧ clients_cache (main inp w).2 = clients_cache w
  ∧ (∀ d f, charger_sites (env d (now w) f w) = (Ok sites, env d (now w) f w)
            ∧ charger_clients (env d (now w) f w)
              = (Ok clients, env d (now w) f w)).
Proof.
  intros Hs Hc He Ha.
  destruct (main_warm inp w sites clients Hs Hc He Ha) as (msgs & Hui & Hw & Hr).
  rewrite Hw. simpl. split; [by apply calls_app_ui|]. repeat split.
  - by apply charger_sites_hit.
  - by apply charger_clients_hit.
Qed.

Lemma warm_run_local_witness :
  let w := (main browse (start store0)).2 in
  calls (trace (main browse w).2) = [SelectSites; SelectClients]
  ∧ charger_sites (env (Store.mk [] []) 0 [Some "down"] w)
    = (Ok [alpha; beta], env (Store.mk [] []) 0 [Some "down"] w).
Proof.
  intros w.
  destruct (warm_run_local browse w [alpha; beta] acme)
    as (Hcalls & _ & _ & _ & _ & Hreads); try reflexivity.
  split; [exact Hcalls | apply Hreads].
Defined.

(** ** The clients dict and the join *)

Lemma dict_of_clients_lookup rows k :
  dict_of_clients rows !! k
  = Client.name <$> last (filter (fun c => Client.id c = k) rows).
Proof.
  unfold dict_of_clients. induction rows as [|c rows IH] using rev_ind; [done|].
  rewrite foldl_snoc, last_filter_snoc, lookup_insert.
  destruct (decide (Client.id c = k)) as [Hk|Hk]; [done | exact IH].
Qed.

(** X7. The clients dict binds an id to the name of the last row of the
    response that carries it, and has no other keys.  Through the join, a
    site shows the name of that row; it shows "Non assigné" when it has no
    client id, when no row carries its id, and when the row's name is null. *)
Theorem client_join (rows : list Client.row) :
  (∀ k, dict_of_clients rows !! k
        = Client.name <$> last (filter (fun c => Client.id c = k) rows))
  ∧ ∀ sites i s, sites !! i = Some s →
      ∃ v, assemble sites (dict_of_clients rows) !! i = Some v
        ∧ Frame.site v = s
        ∧ Frame.client_name v
          = match Site.client_map_id s with
            | Some k =>
                match last (filter (fun c => Client.id c = k) rows) with
                | Some c => default NON_ASSIGNE (Client.name c)
                | None => NON_ASSIGNE
                end
            | None => NON_ASSIGNE
            end.
Proof.
  split; [apply dict_of_clients_lookup|].
  intros sites i s Hs.
  destruct (assemble_lookup sites (dict_of_clients rows) i s Hs)
    as (v & Hv & Hsite & Hname).
  exists v. split; [done|]. split; [done|]. rewrite Hname.
  destruct (Site.client_map_id s) as [k|]; [|done]. simpl.
  rewrite dict_of_clients_lookup.
  by destruct (last (filter _ rows)) as [[ci [n|]]|].
Qed.

(** An id served twice reads as the later row. *)
Example client_join_later_row :
  map Frame.client_name
    (assemble [alpha] (dict_of_clients [Client.mk 1 (Some "Acme"); Client.mk 1 (Some "Apex")]))
  = ["Apex"].
Proof. reflexivity. Qed.

(** ** How filters compose *)

Lemma filter_sublist_impl {A : Type} (p q : A → bool) (l : list A) :
  (∀ x, p x = true → q x = true) →
  List.filter p l `sublist_of` List.filter q l.
Proof.
  intros Hpq. induction l as [|x l IH]; simpl; [done|].
  destruct (p x) eqn:Ep.
  - rewrite (Hpq x Ep). by constructor.
  - destruct (q x); [by constructor | done].
Qed.

Lemma filter_idem_bool {A : Type} (p : A → bool) (l : list A) :
  List.filter p (List.filter p l) = List.filter p l.
Proof.
  rewrite filter_filter_bool. induction l as [|x l IH]; simpl; [done|].
  destruct (p x); simpl; by rewrite IH.
Qed.

Lemma filter_comm_bool {A : Type} (p q : A → bool) (l : list A) :
  List.filter p (List.filter q l) = List.filter q (List.filter p l).
Proof.
  rewrite !filter_filter_bool. induction l as [|x l IH]; simpl; [done|].
  destruct (p x), (q x); simpl; by rewrite IH.
Qed.

(** X8. Widening the power range never removes a row, and a client filter
    shows a part of what "Tous" shows under the same range: the narrower
    list is a subsequence of the wider one. *)
Theorem filter_monotone (frame : list Frame.row) (sel : string) (lo hi lo' hi' : Q) :
  (lo' <= lo)%Q → (hi <= hi')%Q →
  apply_filters frame sel (Py.Fin lo) (Py.Fin hi)
    `sublist_of` apply_filters frame sel (Py.Fin lo') (Py.Fin hi')
  ∧ apply_filters frame sel (Py.Fin lo) (Py.Fin hi)
      `sublist_of` apply_filters frame TOUS (Py.Fin lo) (Py.Fin hi).
Proof.
  intros Hlo Hhi. rewrite !apply_filters_keep. split.
  - apply filter_sublist_impl. intros r. unfold keep; simpl.
    rewrite !andb_true_iff, !Qle_bool_iff. intros (Hs & H1 & H2).
    split; [done|]. split; lra.
  - apply filter_sublist_impl. intros r. unfold keep; simpl.
    rewrite !andb_true_iff. intros (Hs & H1 & H2). done.
Qed.

Lemma filter_monotone_witness :
  apply_filters (assemble [alpha; beta] acme) "Acme" (Py.Fin 10) (Py.Fin 100)
    `sublist_of` apply_filters (assemble [alpha; beta] acme) "Acme" (Py.Fin 0) (Py.Fin 1000)
  ∧ apply_filters (assemble [alpha; beta] acme) "Acme" (Py.Fin 10) (Py.Fin 100)
      `sublist_of` apply_filters (assemble [alpha; beta] acme) TOUS (Py.Fin 10) (Py.Fin 100).
Proof.
  apply (filter_monotone (assemble [alpha; beta] acme) "Acme" 10 100 0 1000);
    discriminate.
Defined.

(** X9. Filtering an already filtered frame with the same settings changes
    nothing, and two filters applied one after the other give the same
    list in either order. *)
Theorem filters_compose (frame : list Frame.row)
    (s1 s2 : string) (lo1 hi1 lo2 hi2 : Py.float) :
  apply_filters (apply_filters frame s1 lo1 hi1) s1 lo1 hi1
    = apply_filters frame s1 lo1 hi1
  ∧ apply_filters (apply_filters frame s1 lo1 hi1) s2 lo2 hi2
    = apply_filters (apply_filters frame s2 lo2 hi2) s1 lo1 hi1.
Proof.
  rewrite !apply_filters_keep. split.
  - apply filter_idem_bool.
  - apply filter_comm_bool.
Qed.

(** ** The first view *)

Lemma filter_all_bool {A : Type} (p : A → bool) (l : list A) :
  (∀ x, x ∈ l → p x = true) → List.filter p l = l.
Proof.
  induction l as [|x l IH]; intros H; simpl; [done|].
  rewrite (H x (list_elem_of_here _ _)), IH; [done|].
  intros y Hy. apply H. by right.
Qed.

Lemma assemble_cell sites clients r :
  r ∈ assemble sites clients →
  ∃ s, s ∈ sites
       ∧ fillna0 (Frame.nominal_power r) = default 0%Q (Site.nominal_power s).
Proof.
  unfold assemble. intros (s & -> & Hs)%list_elem_of_fmap.
  exists s. split; [done|]. simpl.
  destruct (Site.nominal_power s) as [q|]; simpl; [done|].
  by destruct (is_float_column sites).
Qed.

Lemma default_max_value sites clients :
  (∃ q, Some q ∈ map Site.nominal_power sites) →
  ∃ m, Some m ∈ map Site.nominal_power sites
       ∧ (∀ q, Some q ∈ map Site.nominal_power sites → (q <= m)%Q)
       ∧ default_puissance_max (assemble sites clients)
         = Py.Fin (if Qeq_bool m 0 then 10000 else m).
Proof.
  intros [q Hq]. unfold default_puissance_max.
  destruct (series_max (map Frame.nominal_power (assemble sites clients)))
    as [|m] eqn:E.
  - exfalso. apply (series_max_nan _ E q). by apply power_cells.
  - destruct (series_max_fin _ _ E) as [Hin Hmax]. exists m.
    split; [by apply (power_cells sites clients)|]. split.
    + intros q' Hq'. apply Hmax. by apply power_cells.
    + simpl. by destruct (Qeq_bool m 0).
Qed.

(** X10. On a first visit (selector "Tous", min 0, max left at its
    default) every site is listed, provided some site has a power and no
    power is negative. *)
Theorem default_bounds_show_all (sites : list Site.row)
    (clients : gmap Z (option string)) :
  (∃ q, Some q ∈ map Site.nominal_power sites) →
  (∀ q, Some q ∈ map Site.nominal_power sites → (0 <= q)%Q) →
  apply_filters (assemble sites clients) TOUS (Py.Fin 0)
    (default_puissance_max (assemble sites clients))
  = assemble sites clients.
Proof.
  intros Hsome Hpos.
  destruct (default_max_value sites clients Hsome) as (m & Hm & Hmax & ->).
  rewrite apply_filters_keep. apply filter_all_bool. intros r Hr.
  destruct (assemble_cell sites clients r Hr) as (s & Hs & Heff).
  unfold keep; simpl. rewrite Heff. rewrite andb_true_iff, !Qle_bool_iff.
  assert (Hm0 : (0 <= m)%Q) by by apply Hpos.
  assert (Hb : (m <= (if Qeq_bool m 0 then 10000 else m))%Q).
  { destruct (Qeq_bool m 0) eqn:E; [|apply Qle_refl].
    apply Qeq_bool_iff in E. rewrite E. discriminate. }
  destruct (Site.nominal_power s) as [q|] eqn:Eq; simpl.
  - assert (Hq : Some q ∈ map Site.nominal_power sites).
    { apply list_elem_of_fmap. by exists s. }
    split; [by apply Hpos|].
    apply Qle_trans with m; [by apply Hmax | done].
  - split; [apply Qle_refl|]. by apply Qle_trans with m.
Qed.

Lemma default_bounds_show_all_witness :
  apply_filters (assemble [alpha; gamma; idle] acme) TOUS (Py.Fin 0)
    (default_puissance_max (assemble [alpha; gamma; idle] acme))
  = assemble [alpha; gamma; idle] acme.
Proof.
  apply (default_bounds_show_all [alpha; gamma; idle] acme).
  - exists 50%Q. by left.
  - intros q Hq. simpl in Hq.
    repeat (apply elem_of_cons in Hq as [Hq|Hq]; [by simplify_eq|]).
    by apply elem_of_nil in Hq.
Defined.

Lemma series_max_none col :
  (∀ q, Some (Py.Fin q) ∉ col) → series_max col = Py.NaN.
Proof.
  intros H. destruct (series_max col) as [|m] eqn:E; [done|].
  destruct (series_max_fin col m E) as [Hin _]. by apply H in Hin.
Qed.

(** X11. When no site of the collection has a power, the value handed to
    the "Puissance max" widget is NaN, and the filter run with that bound
    keeps no row, whatever the client and the min. *)
Theorem no_power_no_rows (sites : list Site.row)
    (clients : gmap Z (option string)) (sel : string) (lo : Py.float) :
  (∀ s, s ∈ sites → Site.nominal_power s = None) →
  default_puissance_max (assemble sites clients) = Py.NaN
  ∧ apply_filters (assemble sites clients) sel lo
      (default_puissance_max (assemble sites clients)) = [].
Proof.
  intros Hnone.
  assert (E : default_puissance_max (assemble sites clients) = Py.NaN).
  { unfold default_puissance_max. rewrite series_max_none; [done|].
    intros q Hq. apply power_cells in Hq.
    apply list_elem_of_fmap in Hq as (s & Hq & Hs).
    rewrite (Hnone s Hs) in Hq. done. }
  rewrite E. split; [done | apply apply_filters_nan_max].
Qed.

Lemma no_power_no_rows_witness :
  default_puissance_max (assemble [gamma] acme) = Py.NaN
  ∧ apply_filters (assemble [gamma] acme) TOUS (Py.Fin 0)
      (default_puissance_max (assemble [gamma] acme)) = [].
Proof.
  apply (no_power_no_rows [gamma] acme TOUS (Py.Fin 0)).
  intros s Hs. apply list_elem_of_singleton in Hs. by subst s.
Defined.

(** ** What the forms send *)

(** X12. Submitting the edit form unchanged sends back what the row holds
    wherever the row holds something: a name, a code and an address that
    are not null, and a power that is present and not negative (the same
    number, zero included). *)
Theorem edit_unchanged_keeps (v : Frame.row) :
  (∀ n, Frame.name v = Some n → Update.name (update_data (edit_defaults v)) = n)
  ∧ (∀ c, Frame.code v = Some c → Update.code (update_data (edit_defaults v)) = c)
  ∧ (∀ a, Frame.address v = Some a →
          Update.address (update_data (edit_defaults v)) = a)
  ∧ (∀ q, Frame.nominal_power v = Some (Py.Fin q) → (0 <= q)%Q →
          ∃ q', Update.nominal_power (update_data (edit_defaults v)) = Py.Fin q'
                ∧ (q' == q)%Q).
Proof.
  unfold update_data, edit_defaults; simpl.
  assert (Hstr : ∀ s, Py.str_or (Some s) "" = s).
  { intros s. unfold Py.str_or. by destruct (String.eqb_spec s "") as [->|]. }
  split; [by intros n ->|]. split; [by intros c ->|]. split; [by intros a ->|].
  intros q -> _. unfold Py.float_or, Py.truthy.
  destruct (Qeq_bool q 0) eqn:E; simpl.
  - exists 0%Q. split; [done|]. apply Qeq_bool_iff in E. by rewrite E.
  - exists q. split; [done | reflexivity].
Qed.

(** X13. The add form turns blanks into nulls and sends the rest as typed:
    an empty code or address and a power of zero become null, so an insert
    never carries an empty code, an empty address or a zero power; the
    name, the date and the client go through as they are. *)
Theorem add_form_blanks (f : AddForm.t) :
  Insert.name (insert_data f) = AddForm.add_name f
  ∧ Insert.commission_date (insert_data f) = AddForm.add_date f
  ∧ Insert.client_map_id (insert_data f) = AddForm.add_client f
  ∧ (Insert.code (insert_data f) = None ↔ AddForm.add_code f = "")
  ∧ (∀ c, Insert.code (insert_data f) = Some c → c = AddForm.add_code f ∧ c ≠ "")
  ∧ (Insert.address (insert_data f) = None ↔ AddForm.add_address f = "")
  ∧ (∀ a, Insert.address (insert_data f) = Some a →
          a = AddForm.add_address f ∧ a ≠ "")
  ∧ (Insert.nominal_power (insert_data f) = None ↔ (AddForm.add_power f == 0)%Q)
  ∧ (∀ q, Insert.nominal_power (insert_data f) = Some q →
          q = AddForm.add_power f ∧ ¬ (q == 0)%Q).
Proof.
  unfold insert_data; simpl.
  assert (Hstr : ∀ s, (Py.str_or_none s = None ↔ s = "")
                      ∧ ∀ c, Py.str_or_none s = Some c → c = s ∧ c ≠ "").
  { intros s. unfold Py.str_or_none.
    destruct (String.eqb_spec s "") as [->|Hne]; split; try done.
    intros c [= <-]. done. }
  split; [done|]. split; [done|]. split; [done|].
  split; [apply Hstr|]. split; [apply Hstr|].
  split; [apply Hstr|]. split; [apply Hstr|].
  unfold Py.num_or_none.
  destruct (Qeq_bool (AddForm.add_power f) 0) eqn:E.
  - apply Qeq_bool_iff in E. split; [done|]. done.
  - assert (¬ (AddForm.add_power f == 0)%Q) as Hne.
    { intros H. apply Qeq_bool_iff in H. congruence. }
    split; [split; [done | by intros H]|].
    intros q [= <-]. done.
Qed.

Lemma form_edit_submit_ok site f w q :
  goes_through (faults w) → EditForm.new_power f = Py.Fin q →
  ∃ rows d,
    Store.update (Frame.id site) (update_data f) (db w) = inr (rows, d)
    ∧ form_edit_submit site f w
      = (Control Rerun,
         mkWorld d (now w) (tail (faults w)) None (clients_cache w)
           (trace w ++ [Gw (UpdateSite (Frame.id site) (update_data f));
                        ClearSites;
                        StSuccess ("Site '" +:+ EditForm.new_name f
                                   +:+ "' mis à jour !")])).
Proof.
  intros Hf Hq.
  destruct (Store.update (Frame.id site) (update_data f) (db w))
    as [e|[rows d]] eqn:E.
  { unfold Store.update, update_data in E. simpl in E. by rewrite Hq in E. }
  exists rows, d. split; [done|].
  unfold form_edit_submit, try_except, sauvegarder_site, bind.
  rewrite (gateway_ok _ _ w rows d Hf E).
  unfold charger_sites_clear, ret, st_success, st_rerun, emit, log,
    set_sites_cache, set_db, set_faults; simpl.
  by rewrite app3.
Qed.

(** X14. When the Gateway accepts the update, the edit form prints its
    success message and asks for a rerun, with the sites entry dropped.
    It does so without looking at the rows the update returned: the
    message is the same when no row carries the id any more. *)
Theorem edit_submit_success (site : Frame.row) (f : EditForm.t) (w : World) (q : Q) :
  goes_through (faults w) → EditForm.new_power f = Py.Fin q →
  (∃ w', form_edit_submit site f w = (Control Rerun, w')
     ∧ trace w'
       = trace w ++ [Gw (UpdateSite (Frame.id site) (update_data f));
                     ClearSites;
                     StSuccess ("Site '" +:+ EditForm.new_name f
                                +:+ "' mis à jour !")]
     ∧ sites_cache w' = None
     ∧ clients_cache w' = clients_cache w
     ∧ Store.update (Frame.id site) (update_data f) (db w)
       = inr (List.filter (fun s => Z.eqb (Site.id s) (Frame.id site))
                (Store.sites_mapping (db w')), db w'))
  ∧ ((∀ s, s ∈ Store.sites_mapping (db w) → Site.id s ≠ Frame.id site) →
     Store.sites_mapping (db (form_edit_submit site f w).2)
     = Store.sites_mapping (db w)).
Proof.
  intros Hf Hq.
  destruct (form_edit_submit_ok site f w q Hf Hq) as (rows & d & Hup & Hrun).
  rewrite Hrun. simpl. split.
  - eexists. split; [done|]. simpl. repeat split.
    rewrite Hup. unfold Store.update, update_data in Hup. simpl in Hup.
    rewrite Hq in Hup. by injection Hup as <- <-.
  - intros Hno. unfold Store.update, update_data in Hup. simpl in Hup.
    rewrite Hq in Hup. injection Hup as _ <-. simpl.
    revert Hno. generalize (Store.sites_mapping (db w)). intros l.
    induction l as [|s l IH]; intros Hno; simpl; [done|].
    rewrite IH; [|intros s' Hs'; apply Hno; by right].
    destruct (Z.eqb_spec (Site.id s) (Frame.id site)) as [Heq|]; [|done].
    exfalso. by apply (Hno s (list_elem_of_here _ _)).
Qed.

Lemma edit_submit_success_witness :
  let ghost := Frame.mk 99 (Some "Ghost") None None None None None false NON_ASSIGNE in
  (form_edit_submit ghost (edit_defaults ghost) cached0).1 = Control Rerun
  ∧ Store.sites_mapping (db (form_edit_submit ghost (edit_defaults ghost) cached0).2)
    = Store.sites_mapping (db cached0).
Proof.
  intros ghost.
  destruct (edit_submit_success ghost (edit_defaults ghost) cached0 0)
    as [(w' & Hrun & _) Hsame]; [intros e; discriminate | reflexivity |].
  split; [by rewrite Hrun|].
  apply Hsame. intros s Hs. simpl in Hs.
  repeat (apply elem_of_cons in Hs as [->|Hs]; [done|]).
  by apply elem_of_nil in Hs.
Defined.

(** ** The clients entry *)

Section KeepsClients.
Context {A B : Type}.

Let same (w w' : World) : Prop := clients_cache w' = clients_cache w.

Lemma same_trans w1 w2 w3 : same w1 w2 → same w2 w3 → same w1 w3.
Proof. unfold same. congruence. Qed.

Lemma same_try (body : M A) (handler : string → M A) :
  preserves same body → (∀ e, preserves same (handler e)) →
  preserves same (try_except body handler).
Proof.
  intros Hb Hh w r w'. unfold try_except.
  destruct (body w) as [[a|e|c] w1] eqn:E; intros H.
  - injection H as <- <-. by apply (Hb w _ _ E).
  - apply same_trans with w1; [by apply (Hb w _ _ E) | by apply (Hh e w1 r)].
  - injection H as <- <-. by apply (Hb w _ _ E).
Qed.

Lemma same_gateway c (op : Store.t → string + (A * Store.t)) :
  preserves same (gateway c op).
Proof.
  intros w r w'. unfold gateway.
  destruct (head (faults w)) as [[e|]|]; try destruct (op (db w)) as [e'|[a d]].
  all: by intros [= <- <-].
Qed.

Lemma same_emit e : preserves same (emit e).
Proof. by intros w r w' [= <- <-]. Qed.

Lemma same_ret (a : A) : preserves same (ret a).
Proof. by intros w r w' [= <- <-]. Qed.

Lemma same_rerun : preserves same (@st_rerun A).
Proof. by intros w r w' [= <- <-]. Qed.

Lemma same_stop : preserves same (@st_stop A).
Proof. by intros w r w' [= <- <-]. Qed.

Lemma same_clear : preserves same charger_sites_clear.
Proof. by intros w r w' [= <- <-]. Qed.

Lemma same_bind (m : M A) (k : A → M B) :
  preserves same m → (∀ a, preserves same (k a)) → preserves same (bind m k).
Proof. apply preserves_bind_trans, same_trans. Qed.
End KeepsClients.

Lemma same_charger_sites :
  preserves (fun w w' => clients_cache w' = clients_cache w) charger_sites.
Proof.
  intros w r w'. unfold charger_sites, cache_data.
  destruct (fresh 60 (now w) (sites_cache w)) as [v|]; [by intros [= <- <-]|].
  destruct (gateway SelectSites _ w) as [[v|e|c] w1] eqn:E.
  all: intros [= <- <-]; simpl; by apply (same_gateway _ _ _ _ _ E).
Qed.

Lemma same_sauvegarder i d :
  preserves (fun w w' => clients_cache w' = clients_cache w) (sauvegarder_site i d).
Proof.
  unfold sauvegarder_site.
  apply same_bind; [apply same_gateway|]. intros rows.
  apply same_bind; [apply same_clear|]. intros _. apply same_ret.
Qed.

Lemma same_ajouter d :
  preserves (fun w w' => clients_cache w' = clients_cache w) (ajouter_site d).
Proof.
  unfold ajouter_site.
  apply same_bind; [apply same_gateway|]. intros rows.
  apply same_bind; [apply same_clear|]. intros _. apply same_ret.
Qed.

Lemma same_tabs inp frame :
  preserves (fun w w' => clients_cache w' = clients_cache w)
    (tab_edit inp frame ;; tab_ajout inp ;; ret tt).
Proof.
  apply same_bind.
  { unfold tab_edit. destruct (sites_options frame) as [|[k0 first] rest].
    - apply same_emit.
    - destruct (edit_submitted inp) as [f|]; [|apply same_ret].
      unfold form_edit_submit. apply same_try.
      + apply same_bind; [apply same_sauvegarder|]. intros _.
        apply same_bind; [apply same_emit|]. intros _. apply same_rerun.
      + intros e. apply same_emit. }
  intros _. apply same_bind; [|intros _; apply same_ret].
  unfold tab_ajout. destruct (ajout_submitted inp) as [f|]; [|apply same_ret].
  unfold form_ajout_submit.
  destruct (String.eqb (AddForm.add_name f) ""); [apply same_emit|].
  apply same_try.
  - apply same_bind; [apply same_ajouter|]. intros _.
    apply same_bind; [apply same_emit|]. intros _. apply same_rerun.
  - intros e. apply same_emit.
Qed.

(** X15. Nothing on the page refreshes the client names before their 300
    seconds are over: reading the sites, saving a site and adding a site
    leave the clients entry alone, and a run that starts with a fresh
    clients entry ends with the same entry, whatever was submitted. *)
Theorem clients_entry_stable (w : World) :
  clients_cache (charger_sites w).2 = clients_cache w
  ∧ (∀ i d, clients_cache (sauvegarder_site i d w).2 = clients_cache w)
  ∧ (∀ d, clients_cache (ajouter_site d w).2 = clients_cache w)
  ∧ (∀ inp clients, fresh 300 (now w) (clients_cache w) = Some clients →
       clients_cache (main inp w).2 = clients_cache w).
Proof.
  split; [|split; [|split]].
  - apply (same_charger_sites w (charger_sites w).1). by destruct (charger_sites w).
  - intros i d. apply (same_sauvegarder i d w (sauvegarder_site i d w).1).
    by destruct (sauvegarder_site i d w).
  - intros d. apply (same_ajouter d w (ajouter_site d w).1).
    by destruct (ajouter_site d w).
  - intros inp clients Hc. unfold main. unfold bind at 1.
    destruct (charger_sites w) as [[sites|e|c] w1] eqn:E1; simpl.
    2,3: by apply (same_charger_sites _ _ _ E1).
    pose proof (same_charger_sites _ _ _ E1) as H1. simpl in H1.
    assert (Hnow : now w1 = now w).
    { revert E1. unfold charger_sites, cache_data, gateway.
      destruct (fresh 60 (now w) (sites_cache w)); [by intros [= <- <-]|].
      destruct (head (faults w)) as [[e|]|]; simpl; by intros [= <- <-]. }
    unfold bind at 1.
    rewrite (charger_clients_hit w1 clients); [|by rewrite Hnow, H1].
    destruct sites as [|s sites]; [by simpl|].
    set (frame := apply_filters _ _ _ _).
    pose proof (same_tabs inp frame w1) as Htabs.
    unfold bind in Htabs |- *.
    destruct (tab_edit inp frame w1) as [[u|e|c] w2] eqn:E2.
    + destruct (tab_ajout inp w2) as [[u'|e|c] w3] eqn:E3; simpl;
        rewrite <- H1; by eapply Htabs.
    + simpl. rewrite <- H1. by eapply Htabs.
    + simpl. rewrite <- H1. by eapply Htabs.
Qed.

(** ** An expired entry *)

(** X16. An expired sites entry is never served, not even when the Gateway
    is down: the read raises the Gateway's error.  The failure is not
    remembered: the entry stays as it was and the next read asks the
    Gateway again. *)
Theorem expired_entry_not_served (w : World) (t0 : Q) (old : list Site.row)
    (e : string) :
  sites_cache w = Some (t0, old) → (t0 + 60 <= now w)%Q →
  head (faults w) = Some (Some e) →
  (charger_sites w).1 = Raise e
  ∧ sites_cache (charger_sites w).2 = Some (t0, old)
  ∧ calls (trace (charger_sites w).2) = calls (trace w) ++ [SelectSites]
  ∧ (goes_through (tail (faults w)) →
     (charger_sites (charger_sites w).2).1 = Ok (Store.select_sites (db w))).
Proof.
  intros Hc Ht Hf.
  assert (Hmiss : fresh 60 (now w) (sites_cache w) = None).
  { rewrite Hc. by apply fresh_after. }
  rewrite (charger_sites_fails w e Hmiss Hf). simpl.
  split; [done|]. split; [done|]. split.
  - unfold calls. by rewrite omap_app.
  - intros Hgo. rewrite charger_sites_miss; [done | by simpl | done].
Qed.

Lemma expired_entry_not_served_witness :
  let w := mkWorld store0 100 [Some "down"] (Some (0%Q, [alpha])) None [] in
  (charger_sites w).1 = Raise "down"
  ∧ sites_cache (charger_sites w).2 = Some (0%Q, [alpha])
  ∧ (charger_sites (charger_sites w).2).1 = Ok [alpha; beta].
Proof.
  intros w.
  destruct (expired_entry_not_served w 0 [alpha] "down")
    as (Hr & Hc & _ & Hnext); [reflexivity | discriminate | reflexivity |].
  split; [exact Hr|]. split; [exact Hc|].
  apply Hnext. intros e. discriminate.
Defined.
